(** * waves-ui: the Timeline hub and the centered-zoom interaction state

    A shallow embedding of [es6/core/timeline.js] (the current [Timeline]
    class, the second one in the file) and of the [CenteredZoomState]
    interaction state, with the properties the specification states about
    them.

    Conventions of the embedding:
    - JavaScript numbers are idealised as exact rationals ([Q]); results
      about them are stated up to [Qeq] ([==]).  Every concrete input used
      below is a small dyadic or integer value on which double arithmetic
      is exact as well.
    - JavaScript objects are referred to by identity: a reference is an
      index into a store of the [World]; [===] on objects is equality of
      references.
    - Calls to collaborators that live outside the modelled files (DOM,
      tracks, layers, interaction states, event subscribers) are recorded,
      in program order, in a call log.
    - A method is a computation [M A]: it takes a [World] and gives an
      [Outcome] (normal return or a thrown exception) with the [World] it
      leaves behind; what was mutated before a [throw] stays mutated. *)

From Stdlib Require Import QArith Qminmax Qfield Qround Lia List String Sorted.
From stdpp Require Import base option list gmap strings.

Open Scope string_scope.
Open Scope list_scope.

(** ** Input events *)

(** The normalized event produced by [Surface] and [Keyboard]:
    [{ type, x, y, dx, dy, originalEvent, source }]. *)
Module WavesEvent.

Record PointerInfo := { clientX : Q; clientY : Q }.

Record t := {
  type : string;
  source : string;
  x : Q;
  y : Q;
  dx : Q;
  dy : Q;
  originalEvent : PointerInfo
}.

End WavesEvent.

(** ** CenteredZoomState *)

Module CenteredZoom.

Local Open Scope Q_scope.

(** Modelled from the spec: the time context class read by
    [CenteredZoomState] is not under src/.  The state reads and writes the
    plain attributes [offset] and [stretchRatio] (the spec's zoom); the
    mapping follows section 4.1 of the spec:
    [timeToPixel(t) = (t - offset) * pixelsPerSecond * zoom] and
    [pixelToTime(x) = x / (pixelsPerSecond * zoom) + offset]. *)
Record TimeContext := {
  offset : Q;
  stretchRatio : Q;
  pixelsPerSecond : Q
}.

Definition timeToPixel (tc : TimeContext) (t : Q) : Q :=
  (t - offset tc) * pixelsPerSecond tc * stretchRatio tc.

Definition pixelToTime (tc : TimeContext) (px : Q) : Q :=
  px / (pixelsPerSecond tc * stretchRatio tc) + offset tc.

(** Modelled from the spec: a d3-style linear scale without the offset,
    the other possible reading of the absent [xScale.invert]. *)
Definition scaleInvert (tc : TimeContext) (px : Q) : Q :=
  px / (pixelsPerSecond tc * stretchRatio tc).

Definition set_stretchRatio (tc : TimeContext) (v : Q) : TimeContext :=
  {| offset := offset tc; stretchRatio := v;
     pixelsPerSecond := pixelsPerSecond tc |}.

Definition set_offset (tc : TimeContext) (v : Q) : TimeContext :=
  {| offset := v; stretchRatio := stretchRatio tc;
     pixelsPerSecond := pixelsPerSecond tc |}.

Record View := { timeContext : TimeContext }.

(** The state object: [this.mouseDown] (undefined, hence falsy, until the
    first mousedown), [this.currentLayer], [this.views], and the number of
    [timeline.views.update()] requests sent to the timeline so far. *)
Record State := {
  mouseDown : bool;
  currentLayer : option nat;
  views : list View;
  updateRequests : nat
}.

Section Gesture.

(** [timeContext.xScale.invert]: the scale object is not under src/; the
    state machine is written over any inverse scale and instantiated
    below. *)
Variable xScale_invert : TimeContext -> Q -> Q.

(** The body of the [this.views.forEach] callback of [onMouseMove]. *)
Definition zoomView (e : WavesEvent.t) (view : View) : View :=
  let tc := timeContext view in
  let lastCenterTime := xScale_invert tc (WavesEvent.x e) in
  (* timeContext.stretchRatio += e.dy / 100 *)
  let tc := set_stretchRatio tc (stretchRatio tc + WavesEvent.dy e / 100) in
  (* timeContext.stretchRatio = Math.max(timeContext.stretchRatio, 0.01) *)
  let tc := set_stretchRatio tc (Qmax (stretchRatio tc) (1 # 100)) in
  let newCenterTime := xScale_invert tc (WavesEvent.x e) in
  let delta := newCenterTime - lastCenterTime in
  (* timeContext.offset += (delta + timeContext.xScale.invert(e.dx)) *)
  let tc := set_offset tc
              (offset tc + (delta + xScale_invert tc (WavesEvent.dx e))) in
  {| timeContext := tc |}.

Definition onMouseDown (e : WavesEvent.t) (st : State) : State :=
  {| mouseDown := true; currentLayer := currentLayer st;
     views := views st; updateRequests := updateRequests st |}.

Definition onMouseMove (e : WavesEvent.t) (st : State) : State :=
  if negb (mouseDown st) then st
  else
    {| mouseDown := mouseDown st; currentLayer := currentLayer st;
       views := List.map (zoomView e) (views st);
       updateRequests := S (updateRequests st) |}.

Definition onMouseUp (e : WavesEvent.t) (st : State) : State :=
  {| mouseDown := false; currentLayer := currentLayer st;
     views := views st; updateRequests := updateRequests st |}.

(** [switch (e.type)] with its three cases and no default. *)
Definition handleEvent (e : WavesEvent.t) (st : State) : State :=
  if String.eqb (WavesEvent.type e) "mousedown" then onMouseDown e st
  else if String.eqb (WavesEvent.type e) "mousemove" then onMouseMove e st
  else if String.eqb (WavesEvent.type e) "mouseup" then onMouseUp e st
  else st.

End Gesture.

(** A mousemove event at pointer position [px] with deltas [ddx], [ddy]. *)
Definition mousemove (px ddx ddy : Q) : WavesEvent.t :=
  {| WavesEvent.type := "mousemove"; WavesEvent.source := "surface";
     WavesEvent.x := px; WavesEvent.y := 0;
     WavesEvent.dx := ddx; WavesEvent.dy := ddy;
     WavesEvent.originalEvent :=
       {| WavesEvent.clientX := px; WavesEvent.clientY := 0 |} |}.

(** A wheel event, a type the state has no case for. *)
Definition wheel (px ddy : Q) : WavesEvent.t :=
  {| WavesEvent.type := "wheel"; WavesEvent.source := "surface";
     WavesEvent.x := px; WavesEvent.y := 0;
     WavesEvent.dx := 0; WavesEvent.dy := ddy;
     WavesEvent.originalEvent :=
       {| WavesEvent.clientX := px; WavesEvent.clientY := 0 |} |}.

Definition unitContext : TimeContext :=
  {| offset := 0; stretchRatio := 1; pixelsPerSecond := 100 |}.

Definition unitView : View := {| timeContext := unitContext |}.

(** The time under pixel [px] in each view of the state. *)
Definition pointerTimes (px : Q) (st : State) : list Q :=
  List.map (fun v => pixelToTime (timeContext v) px) (views st).

Definition dragging (vs : list View) : State :=
  {| mouseDown := true; currentLayer := None; views := vs;
     updateRequests := 0%nat |}.


(** The events of a list handled one after the other. *)
Definition handleEvents (inv : TimeContext -> Q -> Q)
    (es : list WavesEvent.t) (st : State) : State :=
  fold_left (fun st e => handleEvent inv e st) es st.

(** The views after each event of a list has rescaled them in turn. *)
Definition zoomViews (inv : TimeContext -> Q -> Q)
    (es : list WavesEvent.t) (vs : list View) : list View :=
  fold_left (fun vs e => List.map (zoomView inv e) vs) es vs.

Definition typed (type : string) (e : WavesEvent.t) : Prop :=
  WavesEvent.type e = type.

Definition withType (type : string) (e : WavesEvent.t) : WavesEvent.t :=
  {| WavesEvent.type := type; WavesEvent.source := WavesEvent.source e;
     WavesEvent.x := WavesEvent.x e; WavesEvent.y := WavesEvent.y e;
     WavesEvent.dx := WavesEvent.dx e; WavesEvent.dy := WavesEvent.dy e;
     WavesEvent.originalEvent := WavesEvent.originalEvent e |}.

End CenteredZoom.

(** ** Timeline *)

Module Timeline.

(** Object identities. *)
Abbreviation NodeRef := nat.
Abbreviation TrackRef := nat.
Abbreviation LayerRef := nat.
Abbreviation CtxRef := nat.
Abbreviation StateRef := nat.

(** The values the variable [$el] of [getTrackFromDOMElement] ranges over:
    an element with its [classList] and its [parentNode], the document node
    (no [classList] property, [parentNode] is [null]) and [null] itself,
    the [parentNode] of the root of a detached subtree. *)
Inductive DOMNode :=
| Null
| Document
| Element (id : NodeRef) (classList : list string) (parentNode : DOMNode).

Record DOMRect := { left : Q; right : Q; top : Q; bottom : Q }.

(** Modelled from the spec: [Layer] is not under src/.  The timeline reads
    [layer.timeContext], [layer.params.hittable] and
    [layer.$el.getBoundingClientRect()]. *)
Module Layer.

Record t := {
  timeContext : option CtxRef;
  params_hittable : bool;
  boundingClientRect : DOMRect
}.

End Layer.

(** Modelled from the spec: [Track] is not under src/: a rendering surface
    hosting layers, with its container [$el], its own [$svg] element, the
    [layers] it hosts and the rendering context given by [configure]. *)
Module Track.

Record t := {
  el : NodeRef;
  svg : NodeRef;
  height : Q;
  layers : list LayerRef;
  renderingContext : option CtxRef
}.

End Track.

(** Modelled from the spec: the time context classes are not under src/.
    The root is built from [pixelsPerSecond] and [visibleWidth]; a
    [LayerTimeContext] is constructed bound to its parent (spec 4.2). *)
Inductive Context :=
| TimelineTimeContext (pixelsPerSecond visibleWidth : Q)
| LayerTimeContext (parent : CtxRef).

(** The value of [hitLayers]: [None] is [null], [Some ls] an array. *)
Definition HitLayers := option (list LayerRef).

(** Calls to collaborators, in the order the program makes them. *)
Inductive Call :=
| NewTrack (el : NodeRef) (trackHeight : Q) (track : TrackRef)
| TrackConfigure (track : TrackRef) (ctx : CtxRef)
| TrackAdd (track : TrackRef) (layer : LayerRef)
| TrackRemove (track : TrackRef) (layer : LayerRef)
| TrackRender (track : TrackRef)
| TrackUpdate (track : TrackRef)
| NewInteraction (ctor : string) (el : NodeRef)
| NewLayerTimeContext (parent ctx : CtxRef)
| LayerSetTimeContext (layer : LayerRef) (ctx : CtxRef)
| LayerRender (layer : LayerRef)
| LayerUpdate (layer : LayerRef)
| GetBoundingClientRect (layer : LayerRef)
| Emit (e : WavesEvent.t) (hitLayers : HitLayers)
| StateExit (state : StateRef)
| StateEnter (state : StateRef)
| StateHandleEvent (state : StateRef) (e : WavesEvent.t)
                   (hitLayers : HitLayers).

(** The stores of objects, the call log, and the fields of the one
    [Timeline] instance ([this]).  The objects used as maps ([_trackById],
    [_groupedLayers]) are finite maps over their own string keys; the
    properties they inherit from [Object.prototype] are read through
    [inherited] below. *)
Record World := {
  trackStore : list Track.t;
  layerStore : list Layer.t;
  contextStore : list Context;
  domSize : nat;
  calls : list Call;
  _tracks : list TrackRef;
  _state : option StateRef;
  _surfaceCtor : string;
  _trackById : gmap string TrackRef;
  _groupedLayers : gmap string (list LayerRef);
  timeContext : CtxRef
}.

Definition with_trackStore (v : list Track.t) (w : World) : World :=
  {| trackStore := v; layerStore := layerStore w;
     contextStore := contextStore w; domSize := domSize w;
     calls := calls w; _tracks := _tracks w; _state := _state w;
     _surfaceCtor := _surfaceCtor w; _trackById := _trackById w;
     _groupedLayers := _groupedLayers w; timeContext := timeContext w |}.

Definition with_layerStore (v : list Layer.t) (w : World) : World :=
  {| trackStore := trackStore w; layerStore := v;
     contextStore := contextStore w; domSize := domSize w;
     calls := calls w; _tracks := _tracks w; _state := _state w;
     _surfaceCtor := _surfaceCtor w; _trackById := _trackById w;
     _groupedLayers := _groupedLayers w; timeContext := timeContext w |}.

Definition with_contextStore (v : list Context) (w : World) : World :=
  {| trackStore := trackStore w; layerStore := layerStore w;
     contextStore := v; domSize := domSize w;
     calls := calls w; _tracks := _tracks w; _state := _state w;
     _surfaceCtor := _surfaceCtor w; _trackById := _trackById w;
     _groupedLayers := _groupedLayers w; timeContext := timeContext w |}.

Definition with_domSize (v : nat) (w : World) : World :=
  {| trackStore := trackStore w; layerStore := layerStore w;
     contextStore := contextStore w; domSize := v;
     calls := calls w; _tracks := _tracks w; _state := _state w;
     _surfaceCtor := _surfaceCtor w; _trackById := _trackById w;
     _groupedLayers := _groupedLayers w; timeContext := timeContext w |}.

Definition with_calls (v : list Call) (w : World) : World :=
  {| trackStore := trackStore w; layerStore := layerStore w;
     contextStore := contextStore w; domSize := domSize w;
     calls := v; _tracks := _tracks w; _state := _state w;
     _surfaceCtor := _surfaceCtor w; _trackById := _trackById w;
     _groupedLayers := _groupedLayers w; timeContext := timeContext w |}.

Definition with__tracks (v : list TrackRef) (w : World) : World :=
  {| trackStore := trackStore w; layerStore := layerStore w;
     contextStore := contextStore w; domSize := domSize w;
     calls := calls w; _tracks := v; _state := _state w;
     _surfaceCtor := _surfaceCtor w; _trackById := _trackById w;
     _groupedLayers := _groupedLayers w; timeContext := timeContext w |}.

Definition with__state (v : option StateRef) (w : World) : World :=
  {| trackStore := trackStore w; layerStore := layerStore w;
     contextStore := contextStore w; domSize := domSize w;
     calls := calls w; _tracks := _tracks w; _state := v;
     _surfaceCtor := _surfaceCtor w; _trackById := _trackById w;
     _groupedLayers := _groupedLayers w; timeContext := timeContext w |}.

Definition with__trackById (v : gmap string TrackRef) (w : World) : World :=
  {| trackStore := trackStore w; layerStore := layerStore w;
     contextStore := contextStore w; domSize := domSize w;
     calls := calls w; _tracks := _tracks w; _state := _state w;
     _surfaceCtor := _surfaceCtor w; _trackById := v;
     _groupedLayers := _groupedLayers w; timeContext := timeContext w |}.

Definition with__groupedLayers (v : gmap string (list LayerRef))
    (w : World) : World :=
  {| trackStore := trackStore w; layerStore := layerStore w;
     contextStore := contextStore w; domSize := domSize w;
     calls := calls w; _tracks := _tracks w; _state := _state w;
     _surfaceCtor := _surfaceCtor w; _trackById := _trackById w;
     _groupedLayers := v; timeContext := timeContext w |}.

(** *** Computations *)

Inductive JSError :=
| TrackAlreadyAdded          (* Error('track already added to the timeline') *)
| TrackIdAlreadyUsed (trackId : string)
                             (* Error('trackId: ... is already used') *)
| TypeError.                 (* property access on null or undefined *)

Inductive Outcome (A : Type) :=
| Return (a : A)
| Throw (err : JSError).

Arguments Return {A} a.
Arguments Throw {A} err.

Definition M (A : Type) : Type := World -> Outcome A * World.

#[global] Instance M_ret : MRet M := fun A a w => (Return a, w).

#[global] Instance M_bind : MBind M := fun A B k m w =>
  match m w with
  | (Return a, w') => k a w'
  | (Throw err, w') => (Throw err, w')
  end.

Definition throw {A : Type} (err : JSError) : M A := fun w => (Throw err, w).

Definition gets {A : Type} (f : World -> A) : M A := fun w => (Return (f w), w).

Definition modify (f : World -> World) : M unit := fun w => (Return tt, f w).

(** A call to a collaborator is appended to the log.  The collaborators
    are taken to return normally and not to call back into the timeline. *)
Definition call (c : Call) : M unit :=
  modify (fun w => with_calls (calls w ++ [c]) w).

(** Reading a property of the object behind a reference. *)
Definition deref {A B : Type} (store : World -> list A) (r : nat)
    (field : A -> B) : M B := fun w =>
  match store w !! r with
  | Some o => (Return (field o), w)
  | None => (Throw TypeError, w)
  end.

Fixpoint forEach {A : Type} (f : A -> M unit) (l : list A) : M unit :=
  match l with
  | [] => mret tt
  | a :: l' => f a ;; forEach f l'
  end.

(** *** Collaborators *)

(** Modelled from the spec: [TrackCollection] is not under src/; its
    [layers] getter gathers the layers of the tracks, in track order. *)
Fixpoint collectLayers (tracks : list TrackRef) : M (list LayerRef) :=
  match tracks with
  | [] => mret []
  | track :: tracks' =>
      ls ← deref trackStore track Track.layers;
      rest ← collectLayers tracks';
      mret (ls ++ rest)
  end.

Definition setTrack (track : TrackRef) (f : Track.t -> Track.t) : M unit :=
  fun w =>
  match trackStore w !! track with
  | Some o => (Return tt, with_trackStore (<[track := f o]> (trackStore w)) w)
  | None => (Throw TypeError, w)
  end.

Definition setLayer (layer : LayerRef) (f : Layer.t -> Layer.t) : M unit :=
  fun w =>
  match layerStore w !! layer with
  | Some o => (Return tt, with_layerStore (<[layer := f o]> (layerStore w)) w)
  | None => (Throw TypeError, w)
  end.

(** Modelled from the spec: [new Track($el, trackHeight)] builds a track
    with a [$svg] element of its own and no layers. *)
Definition newTrack (el : NodeRef) (trackHeight : Q) : M TrackRef := fun w =>
  let track := length (trackStore w) in
  let o := {| Track.el := el; Track.svg := domSize w;
              Track.height := trackHeight; Track.layers := [];
              Track.renderingContext := None |} in
  (Return track,
   with_calls (calls w ++ [NewTrack el trackHeight track])
     (with_domSize (S (domSize w))
        (with_trackStore (trackStore w ++ [o]) w))).

(** Modelled from the spec: [track.configure(timeContext)] stores the
    context the track renders with. *)
Definition trackConfigure (track : TrackRef) (ctx : CtxRef) : M unit :=
  setTrack track (fun o =>
    {| Track.el := Track.el o; Track.svg := Track.svg o;
       Track.height := Track.height o; Track.layers := Track.layers o;
       Track.renderingContext := Some ctx |}) ;;
  call (TrackConfigure track ctx).

Definition setTrackLayers (ls : list LayerRef) (o : Track.t) : Track.t :=
  {| Track.el := Track.el o; Track.svg := Track.svg o;
     Track.height := Track.height o; Track.layers := ls;
     Track.renderingContext := Track.renderingContext o |}.

(** Modelled from the spec: [track.add(layer)] and [track.remove(layer)]
    are container bookkeeping on [track.layers]. *)
Definition trackAdd (track : TrackRef) (layer : LayerRef) : M unit :=
  setTrack track (fun o => setTrackLayers (Track.layers o ++ [layer]) o) ;;
  call (TrackAdd track layer).

Fixpoint removeFirst (layer : LayerRef) (ls : list LayerRef)
    : list LayerRef :=
  match ls with
  | [] => []
  | l :: ls' => if bool_decide (l = layer) then ls'
                else l :: removeFirst layer ls'
  end.

Definition trackRemove (track : TrackRef) (layer : LayerRef) : M unit :=
  setTrack track (fun o =>
    setTrackLayers (removeFirst layer (Track.layers o)) o) ;;
  call (TrackRemove track layer).

(** Modelled from the spec: [new LayerTimeContext(parent)]. *)
Definition newLayerTimeContext (parent : CtxRef) : M CtxRef := fun w =>
  let ctx := length (contextStore w) in
  (Return ctx,
   with_calls (calls w ++ [NewLayerTimeContext parent ctx])
     (with_contextStore (contextStore w ++ [LayerTimeContext parent]) w)).

(** Modelled from the spec: [layer.setTimeContext(timeContext)] binds the
    context to the layer. *)
Definition layerSetTimeContext (layer : LayerRef) (ctx : CtxRef) : M unit :=
  setLayer layer (fun o =>
    {| Layer.timeContext := Some ctx;
       Layer.params_hittable := Layer.params_hittable o;
       Layer.boundingClientRect := Layer.boundingClientRect o |}) ;;
  call (LayerSetTimeContext layer ctx).

(** *** Methods of [Timeline] *)

(** [_trackById] and [_groupedLayers] are plain objects ([{}]): reading a
    key they do not own gives the property of that name of
    [Object.prototype] when there is one, a function or an object, never
    [undefined] and never an array or a track. *)
Definition objectPrototypeKeys : list string :=
  ["constructor"; "__proto__"; "hasOwnProperty"; "isPrototypeOf";
   "propertyIsEnumerable"; "toLocaleString"; "toString"; "valueOf";
   "__defineGetter__"; "__defineSetter__";
   "__lookupGetter__"; "__lookupSetter__"].

Definition inherited (key : string) : bool :=
  bool_decide (key ∈ objectPrototypeKeys).

(** [createInteraction(ctor, el, options = {})]: builds the interaction
    and subscribes [_handleEvent] to its events. *)
Definition createInteraction (ctor : string) (el : NodeRef) : M unit :=
  call (NewInteraction ctor el).

Definition Qltb (a b : Q) : bool := negb (Qle_bool b a).

(** The test of [getHitLayers]:
    [clientX > br.left && clientX < br.right &&
     clientY > br.top && clientY < br.bottom]. *)
Definition inside (br : DOMRect) (clientX clientY : Q) : bool :=
  Qltb (left br) clientX && Qltb clientX (right br) &&
  Qltb (top br) clientY && Qltb clientY (bottom br).

(** The [this.layers.forEach] loop of [getHitLayers]; [layers] is the
    array being filled. *)
Fixpoint getHitLayers_forEach (clientX clientY : Q) (todo : list LayerRef)
    (layers : list LayerRef) : M (list LayerRef) :=
  match todo with
  | [] => mret layers
  | layer :: todo' =>
      hittable ← deref layerStore layer Layer.params_hittable;
      if negb hittable then
        getHitLayers_forEach clientX clientY todo' layers
      else
        br ← deref layerStore layer Layer.boundingClientRect;
        call (GetBoundingClientRect layer) ;;
        if inside br clientX clientY then
          getHitLayers_forEach clientX clientY todo' (layers ++ [layer])
        else
          getHitLayers_forEach clientX clientY todo' layers
  end.

Definition getHitLayers (e : WavesEvent.t) : M (list LayerRef) :=
  let clientX := WavesEvent.clientX (WavesEvent.originalEvent e) in
  let clientY := WavesEvent.clientY (WavesEvent.originalEvent e) in
  all ← (tracks ← gets _tracks; collectLayers tracks);
  getHitLayers_forEach clientX clientY all [].

Definition _handleEvent (e : WavesEvent.t) : M unit :=
  hitLayers ← (if String.eqb (WavesEvent.source e) "surface"
               then ls ← getHitLayers e; mret (Some ls)
               else mret None);
  (* emit event as a middleware *)
  call (Emit e hitLayers) ;;
  (* propagate to the state *)
  state ← gets _state;
  match state with
  | None => mret tt
  | Some s => call (StateHandleEvent s e hitLayers)
  end.

(** [set state(state)]; [None] is a falsy value such as [null]. *)
Definition set_state (state : option StateRef) : M unit :=
  old ← gets _state;
  match old with Some s => call (StateExit s) | None => mret tt end ;;
  modify (with__state state) ;;
  cur ← gets _state;
  match cur with Some s => call (StateEnter s) | None => mret tt end.

Definition add (track : TrackRef) : M unit :=
  tracks ← gets _tracks;
  if bool_decide (track ∈ tracks) then throw TrackAlreadyAdded
  else
    ctx ← gets timeContext;
    trackConfigure track ctx ;;
    modify (fun w => with__tracks (_tracks w ++ [track]) w) ;;
    ctor ← gets _surfaceCtor;
    el ← deref trackStore track Track.el;
    createInteraction ctor el.

(** [createTrack($el, trackHeight = 100, trackId = null)]. *)
Definition createTrack (el : NodeRef) (trackHeight : Q)
    (trackId : option string) : M TrackRef :=
  track ← newTrack el trackHeight;
  match trackId with
  | Some id =>
      byId ← gets _trackById;
      (* if (this._trackById[trackId] !== undefined) throw ... *)
      match byId !! id with
      | Some _ => throw (TrackIdAlreadyUsed id)
      | None =>
          if inherited id then throw (TrackIdAlreadyUsed id)
          else modify (fun w => with__trackById (<[id := track]> byId) w)
      end
  | None => mret tt
  end ;;
  add track ;;
  call (TrackRender track) ;;
  call (TrackUpdate track) ;;
  mret track.

(** [getTrackById(trackId)]: the track registered under the id; [None]
    stands for a value that is no track, [undefined] or a property
    inherited from [Object.prototype]. *)
Definition getTrackById (trackId : string) : M (option TrackRef) :=
  gets (fun w => _trackById w !! trackId).

(** [addLayer(layer, trackOrTrackId, groupId = 'default', isAxis = false)];
    [inr trackId] is the case [typeof trackOrTrackId === 'string']. *)
Definition addLayer (layer : LayerRef) (trackOrTrackId : TrackRef + string)
    (groupId : string) (isAxis : bool) : M unit :=
  track ← match trackOrTrackId with
          | inl t => mret (Some t)
          | inr trackId => getTrackById trackId
          end;
  (* creates the LayerTimeContext if not present *)
  bound ← deref layerStore layer Layer.timeContext;
  match bound with
  | Some _ => mret tt
  | None =>
      root ← gets timeContext;
      tc ← (if isAxis then mret root else newLayerTimeContext root);
      layerSetTimeContext layer tc
  end ;;
  match track with
  | Some t => trackAdd t layer
  | None => throw TypeError
  end ;;
  groups ← gets _groupedLayers;
  match groups !! groupId with
  | Some group =>
      modify (with__groupedLayers (<[groupId := group ++ [layer]]> groups))
  | None =>
      (* an inherited property is truthy, so no group is created, and it
         has no [push] *)
      if inherited groupId then throw TypeError
      else modify (with__groupedLayers (<[groupId := [layer]]> groups))
  end ;;
  call (LayerRender layer) ;;
  call (LayerUpdate layer).

(** [Array.prototype.splice(start, deleteCount)] for a [start] that is
    not negative: the elements before [start] and those from
    [start + deleteCount] on remain. *)
Definition splice {A : Type} (start deleteCount : nat) (l : list A) : list A :=
  take start l ++ drop (start + deleteCount) l.

(** [ToIntegerOrInfinity] of a layer object, as [splice] applies it to
    its first argument: [ToNumber] of a plain object is [NaN], which is
    taken as [0]. *)
Definition toInteger_object (layer : LayerRef) : nat := 0.

(** One round of the [for (let groupId in this._groupedLayers)] loop of
    [removeLayer]: the group after the round, [None] when deleted. *)
Definition cleanGroup (layer : LayerRef) (group : list LayerRef)
    : option (list LayerRef) :=
  let group :=
    if bool_decide (layer ∈ group)
    then splice (toInteger_object layer) 1 group
    else group in
  if Nat.eqb (length group) 0 then None else Some group.

Definition removeLayer (layer : LayerRef) : M unit :=
  tracks ← gets _tracks;
  forEach (fun track =>
    ls ← deref trackStore track Track.layers;
    if bool_decide (layer ∈ ls) then trackRemove track layer
    else mret tt) tracks ;;
  (* clean references in helpers *)
  modify (fun w =>
    with__groupedLayers (omap (cleanGroup layer) (_groupedLayers w)) w).

(** The [do ... while ($svg === null)] loop of [getTrackFromDOMElement]:
    the closest element carrying the class [track]. *)
Fixpoint closestTrackElement (el : DOMNode) : Outcome NodeRef :=
  match el with
  | Null => Throw TypeError
  | Document => Throw TypeError
  | Element id classList parentNode =>
      if bool_decide ("track" ∈ classList) then Return id
      else closestTrackElement parentNode
  end.

(** The [this.tracks.forEach] loop of [getTrackFromDOMElement]; [track]
    is the variable holding the result so far. *)
Fixpoint findTrack (svg : NodeRef) (tracks : list TrackRef)
    (track : option TrackRef) : M (option TrackRef) :=
  match tracks with
  | [] => mret track
  | _track :: tracks' =>
      s ← deref trackStore _track Track.svg;
      findTrack svg tracks' (if bool_decide (s = svg) then Some _track
                             else track)
  end.

Definition getTrackFromDOMElement (el : DOMNode) : M (option TrackRef) :=
  svg ← (fun w => (closestTrackElement el, w));
  tracks ← gets _tracks;
  findTrack svg tracks None.

(** [getLayersByGroup(groupId)]: the group of that id; [None] stands for
    a value that is no group, as in [getTrackById]. *)
Definition getLayersByGroup (groupId : string) : M (option (list LayerRef)) :=
  gets (fun w => _groupedLayers w !! groupId).

(** [new Timeline(pixelsPerSecond, visibleWidth, { registerKeyboard })] in
    a world with no other object; node [0] is the document. *)
Definition newTimeline (pixelsPerSecond visibleWidth : Q)
    (registerKeyboard : bool) : World :=
  {| trackStore := []; layerStore := [];
     contextStore := [TimelineTimeContext pixelsPerSecond visibleWidth];
     domSize := 1;
     calls := if registerKeyboard then [NewInteraction "Keyboard" 0] else [];
     _tracks := []; _state := None; _surfaceCtor := "Surface";
     _trackById := ∅; _groupedLayers := ∅; timeContext := 0 |}.

(** *** Readings of a world used to state the results *)

(** Every reference reachable from the track collection points to an
    object of the stores, as every JavaScript reference does. *)
Definition validLayers (store : list Layer.t) (ls : list LayerRef) : bool :=
  forallb (fun l => bool_decide (is_Some (store !! l))) ls.

Definition validTracks (w : World) (tracks : list TrackRef) : bool :=
  forallb (fun t => match trackStore w !! t with
                    | Some o => validLayers (layerStore w) (Track.layers o)
                    | None => false
                    end) tracks.

Definition validRefs (w : World) : bool := validTracks w (_tracks w).

(** The value of the [layers] getter. *)
Definition layersOfTracks (store : list Track.t) (tracks : list TrackRef)
    : list LayerRef :=
  flat_map (fun t => match store !! t with
                     | Some o => Track.layers o
                     | None => []
                     end) tracks.

Definition layersOf (w : World) : list LayerRef :=
  layersOfTracks (trackStore w) (_tracks w).

Definition hittableIn (store : list Layer.t) (layer : LayerRef) : bool :=
  match store !! layer with
  | Some o => Layer.params_hittable o
  | None => false
  end.

(** The layer's bounding rectangle strictly contains the point. *)
Definition rectContains (store : list Layer.t) (clientX clientY : Q)
    (layer : LayerRef) : bool :=
  match store !! layer with
  | Some o => inside (Layer.boundingClientRect o) clientX clientY
  | None => false
  end.

Definition pointerX (e : WavesEvent.t) : Q :=
  WavesEvent.clientX (WavesEvent.originalEvent e).

Definition pointerY (e : WavesEvent.t) : Q :=
  WavesEvent.clientY (WavesEvent.originalEvent e).

Definition fromSurface (e : WavesEvent.t) : bool :=
  String.eqb (WavesEvent.source e) "surface".

(** What [_handleEvent] computes as [hitLayers] in world [w]. *)
Definition hitLayersOf (e : WavesEvent.t) (w : World) : HitLayers :=
  if fromSurface e then
    Some (List.filter
            (fun l => hittableIn (layerStore w) l &&
                      rectContains (layerStore w) (pointerX e) (pointerY e) l)
            (layersOf w))
  else None.

(** The DOM reads hit-testing makes. *)
Definition hitTestCalls (e : WavesEvent.t) (w : World) : list Call :=
  if fromSurface e then
    List.map GetBoundingClientRect
      (List.filter (hittableIn (layerStore w)) (layersOf w))
  else [].

Definition forwardCalls (state : option StateRef) (e : WavesEvent.t)
    (hitLayers : HitLayers) : list Call :=
  match state with
  | Some s => [StateHandleEvent s e hitLayers]
  | None => []
  end.

Definition exitCalls (state : option StateRef) : list Call :=
  match state with Some s => [StateExit s] | None => [] end.

Definition enterCalls (state : option StateRef) : list Call :=
  match state with Some s => [StateEnter s] | None => [] end.

(** The states whose [handleEvent] a sequence of calls reaches. *)
Definition handledBy (cs : list Call) : list StateRef :=
  flat_map (fun c => match c with
                     | StateHandleEvent s _ _ => [s]
                     | _ => []
                     end) cs.

(** The [hitLayers] arguments of the public emissions in a sequence of
    calls, and those of the calls to a state's [handleEvent]. *)
Definition emitted (cs : list Call) : list HitLayers :=
  flat_map (fun c => match c with Emit _ hl => [hl] | _ => [] end) cs.

Definition forwarded (cs : list Call) : list HitLayers :=
  flat_map (fun c => match c with
                     | StateHandleEvent _ _ hl => [hl]
                     | _ => []
                     end) cs.

(** The hit-testing output in the words of the spec: a collection of the
    layers whose bounding rectangle contains the pointer position, empty
    when none matches or when the event is not from the surface. *)
Definition spec_hitLayers (e : WavesEvent.t) (w : World) : HitLayers :=
  Some (if fromSurface e then
          List.filter
            (rectContains (layerStore w) (pointerX e) (pointerY e))
            (layersOf w)
        else []).

(** [trackOrTrackId] resolved as [addLayer] resolves it. *)
Definition resolveTrack (trackOrTrackId : TrackRef + string) (w : World)
    : option TrackRef :=
  match trackOrTrackId with
  | inl t => Some t
  | inr trackId => _trackById w !! trackId
  end.

(** Some element of the chain from [el] upwards carries the class
    [track]. *)
Fixpoint hasTrackAncestor (el : DOMNode) : bool :=
  match el with
  | Null | Document => false
  | Element _ classList parentNode =>
      bool_decide ("track" ∈ classList) || hasTrackAncestor parentNode
  end.

(** The track the [forEach] of [getTrackFromDOMElement] ends with: the
    last one of the collection whose [$svg] is the element found. *)
Definition trackOfSvg (store : list Track.t) (svg : NodeRef)
    (tracks : list TrackRef) (track : option TrackRef) : option TrackRef :=
  fold_left (fun found t =>
               match store !! t with
               | Some o => if bool_decide (Track.svg o = svg) then Some t
                           else found
               | None => found
               end) tracks track.

(** *** Concrete worlds *)

Definition rect100 : DOMRect :=
  {| left := 0; right := 100; top := 0; bottom := 50 |}.

Definition freshLayer (hittable : bool) : Layer.t :=
  {| Layer.timeContext := None; Layer.params_hittable := hittable;
     Layer.boundingClientRect := rect100 |}.

Definition pointerEvent (type source : string) (px py : Q) : WavesEvent.t :=
  {| WavesEvent.type := type; WavesEvent.source := source;
     WavesEvent.x := px; WavesEvent.y := py;
     WavesEvent.dx := 0; WavesEvent.dy := 0;
     WavesEvent.originalEvent :=
       {| WavesEvent.clientX := px; WavesEvent.clientY := py |} |}.

(** The world a computation leaves behind. *)
Definition exec {A : Type} (m : M A) (w : World) : World := snd (m w).

(** A timeline with one track, registered as ["main"], in a world with a
    hittable layer [0] and a layer [1] that is not hittable. *)
Definition oneTrack : World :=
  exec (createTrack 1 100 (Some "main"))
       (with_layerStore [freshLayer true; freshLayer false]
          (newTimeline 100 1000 true)).

(** The calls a computation adds to the log. *)
Definition newCalls {A : Type} (m : M A) (w : World) : list Call :=
  drop (length (calls w)) (calls (exec m w)).

(** Both layers added to the track, in the group ["default"]. *)
Definition twoLayers : World :=
  exec (addLayer 0 (inr "main") "default" false ;;
        addLayer 1 (inl 0) "default" true) oneTrack.

(** The track object after [track.configure(ctx)]. *)
Definition configured (ctx : CtxRef) (o : Track.t) : Track.t :=
  {| Track.el := Track.el o; Track.svg := Track.svg o;
     Track.height := Track.height o; Track.layers := Track.layers o;
     Track.renderingContext := Some ctx |}.

(** The track object [createTrack] leaves in the store of world [w]. *)
Definition builtTrack (el : NodeRef) (trackHeight : Q) (w : World)
    : Track.t :=
  {| Track.el := el; Track.svg := domSize w; Track.height := trackHeight;
     Track.layers := []; Track.renderingContext := Some (timeContext w) |}.

(** The track object [new Track(el, trackHeight)] leaves in the store of a
    new timeline, and the world with this one track, not yet added. *)
Definition builtLoose (el : NodeRef) (trackHeight : Q) : Track.t :=
  {| Track.el := el; Track.svg := 1; Track.height := trackHeight;
     Track.layers := []; Track.renderingContext := None |}.

Definition looseTrack : World :=
  exec (newTrack 1 100) (newTimeline 100 1000 true).

(** The calls [addLayer] makes to give layer [layer], whose object is
    [l], a time context. *)
Definition bindingCalls (layer : LayerRef) (l : Layer.t) (isAxis : bool)
    (w : World) : list Call :=
  match Layer.timeContext l with
  | Some _ => []
  | None =>
      if isAxis then [LayerSetTimeContext layer (timeContext w)]
      else [NewLayerTimeContext (timeContext w) (length (contextStore w));
            LayerSetTimeContext layer (length (contextStore w))]
  end.

(** The tracks of a list that hold the layer, in the order of the list. *)
Definition holders (layer : LayerRef) (store : list Track.t)
    (tracks : list TrackRef) : list TrackRef :=
  List.filter (fun t => match store !! t with
                        | Some o => bool_decide (layer ∈ Track.layers o)
                        | None => false
                        end) tracks.

(** *** The remaining methods *)

Definition with__surfaceCtor (v : string) (w : World) : World :=
  {| trackStore := trackStore w; layerStore := layerStore w;
     contextStore := contextStore w; domSize := domSize w;
     calls := calls w; _tracks := _tracks w; _state := _state w;
     _surfaceCtor := v; _trackById := _trackById w;
     _groupedLayers := _groupedLayers w; timeContext := timeContext w |}.

(** [configureSurface(ctor)]. *)
Definition configureSurface (ctor : string) : M unit :=
  modify (with__surfaceCtor ctor).

(** [remove(track)]: the body holds a comment only. *)
Definition remove (track : TrackRef) : M unit := mret tt.

(** The [state] setter of the earlier [Timeline] class of the file: it
    calls [this._state.enter()] without a test of [this._state]. *)
Definition earlier_set_state (state : option StateRef) : M unit :=
  old ← gets _state;
  match old with Some s => call (StateExit s) | None => mret tt end ;;
  modify (with__state state) ;;
  cur ← gets _state;
  match cur with Some s => call (StateEnter s) | None => throw TypeError end.

(** A use of the timeline by its host: an assignment to [state] or an
    event coming from an interaction. *)
Inductive Step :=
| Assign (state : option StateRef)
| Dispatch (e : WavesEvent.t).

Definition step (s : Step) : M unit :=
  match s with
  | Assign state => set_state state
  | Dispatch e => _handleEvent e
  end.

(** Replays the calls made to interaction states against the state that
    is active: [enter] is allowed when no state is active, [exit] and
    [handleEvent] on the active state only.  The result is the state
    active at the end, or [None] when a call is out of turn. *)
Fixpoint lifecycle (cs : list Call) (active : option StateRef)
    : option (option StateRef) :=
  match cs with
  | [] => Some active
  | StateEnter s :: cs' =>
      match active with
      | None => lifecycle cs' (Some s)
      | Some _ => None
      end
  | StateExit s :: cs' =>
      match active with
      | Some a => if bool_decide (a = s) then lifecycle cs' None else None
      | None => None
      end
  | StateHandleEvent s _ _ :: cs' =>
      match active with
      | Some a => if bool_decide (a = s) then lifecycle cs' active else None
      | None => None
      end
  | _ :: cs' => lifecycle cs' active
  end.

End Timeline.

(** ** Line shape *)

Module Line.

Local Open Scope Q_scope.

(** The value of the [d] attribute of the path: the empty string, or ['M']
    followed by the instructions joined by ['L'].  An instruction
    [`${x},${y}`] is kept as the pair of its two numbers. *)
Inductive PathData :=
| NoPath
| MoveLine (instructions : list (Q * Q)).

Section Shape.

(** The data type of the layer, the accessors [this.cx] and [this.cy] of
    the shape, and the two functions of the rendering context. *)
Variable Datum : Type.
Variables cx cy : Datum -> Q.
Variables timeToPixel valueToPixel : Q -> Q.

(** The callback of [data.map] in [_buildLine]. *)
Definition point (datum : Datum) : Q * Q :=
  (timeToPixel (cx datum), valueToPixel (cy datum) - (1 # 2)).

Definition _buildLine (data : list Datum) : PathData :=
  match data with
  | [] => NoPath
  | _ => MoveLine (List.map point data)
  end.

(** The [for] loop of [update] from index [i] on: [data] is what is left
    of the array from [data[i]], [nextX] and [instructions] are the
    variables of the same name. *)
Fixpoint update_for (minX maxX : Z) (nextX : Q) (data : list Datum)
    (instructions : list (Q * Q)) : list (Q * Q) :=
  match data with
  | [] => instructions
  | datum :: data' =>
      let x := nextX in
      (* if (i + 1 < n) nextX = timeToPixel(cx(data[i+1])) *)
      let nextX := match data' with
                   | next :: _ => timeToPixel (cx next)
                   | [] => nextX
                   end in
      if Timeline.Qltb nextX (inject_Z minX) then
        (* continue *)
        update_for minX maxX nextX data' instructions
      else
        let y := valueToPixel (cy datum) - (1 # 2) in
        let instructions := instructions ++ [(x, y)] in
        if Timeline.Qltb (inject_Z maxX) x then
          (* break *)
          instructions
        else update_for minX maxX nextX data' instructions
  end.

(** [update(renderingContext, data)], from the line after the sort on:
    [data] is the copy of the array as [data.sort] has left it (its
    comparison function never answers 0, so the order it gives is up to
    the engine), [rc_minX] and [rc_maxX] are [renderingContext.minX] and
    [renderingContext.maxX].  The result is the value set for [d]. *)
Definition update (rc_minX rc_maxX : Q) (data : list Datum) : PathData :=
  let minX := Qfloor rc_minX in
  let maxX := Qfloor rc_maxX in
  MoveLine
    match data with
    | [] => []
    | first :: _ =>
        update_for minX maxX (timeToPixel (cx first)) data []
    end.

(** The horizontal pixel position of a datum. *)
Definition pixel (datum : Datum) : Q := timeToPixel (cx datum).

(** The data the loop draws, read off [update_for] without the carried
    variables. *)
Fixpoint drawn (minX maxX : Q) (data : list Datum) : list Datum :=
  match data with
  | [] => []
  | datum :: data' =>
      let nextX := match data' with
                   | next :: _ => pixel next
                   | [] => pixel datum
                   end in
      if Timeline.Qltb nextX minX then drawn minX maxX data'
      else if Timeline.Qltb maxX (pixel datum) then [datum]
      else datum :: drawn minX maxX data'
  end.

End Shape.

Arguments point {Datum} cx cy timeToPixel valueToPixel datum.
Arguments _buildLine {Datum} cx cy timeToPixel valueToPixel data.
Arguments update_for {Datum} cx cy timeToPixel valueToPixel
  minX maxX nextX data instructions.
Arguments update {Datum} cx cy timeToPixel valueToPixel rc_minX rc_maxX data.
Arguments pixel {Datum} cx timeToPixel datum.
Arguments drawn {Datum} cx timeToPixel minX maxX data.

(** A breakpoint function sampled at five times, drawn at 100 pixels per
    second in a track 50 pixels high. *)
Definition samples : list (Q * Q) :=
  [(0, 0); (1, 1); (2, 1 # 2); (3, 1); (4, 0)].

Definition sampleTimeToPixel (t : Q) : Q := t * 100.

Definition sampleValueToPixel (v : Q) : Q := 50 - v * 50.

End Line.

(** * Properties *)

(** ** CenteredZoomState *)

Module CenteredZoomProofs.

Import CenteredZoom.

Local Open Scope Q_scope.

Lemma floor_positive (q : Q) : 0 < Qmax q (1 # 100).
Proof.
  apply Qlt_le_trans with (1 # 100); [reflexivity | apply Q.le_max_r].
Qed.

Lemma pos_nonzero (q : Q) : 0 < q -> ~ q == 0.
Proof. intros H E. rewrite E in H. exact (Qlt_irrefl 0 H). Qed.

(** The stretch ratio a view has after the callback: the old one plus
    [dy / 100], floored at [0.01]; it does not depend on the scale. *)
Lemma zoomView_stretchRatio (inv : TimeContext -> Q -> Q)
    (e : WavesEvent.t) (v : View) :
  stretchRatio (timeContext (zoomView inv e v)) =
  Qmax (stretchRatio (timeContext v) + WavesEvent.dy e / 100) (1 # 100).
Proof. reflexivity. Qed.

(** Where the time under the pointer goes in one step without horizontal
    movement, when [xScale.invert] is the spec's [pixelToTime]: it moves by
    the old offset plus twice the change of the scaled pointer position. *)
Lemma zoomView_pointer_time (e : WavesEvent.t) (v : View) :
  0 < pixelsPerSecond (timeContext v) ->
  0 < stretchRatio (timeContext v) ->
  WavesEvent.dx e == 0 ->
  pixelToTime (timeContext (zoomView pixelToTime e v)) (WavesEvent.x e) ==
  pixelToTime (timeContext v) (WavesEvent.x e) + offset (timeContext v)
  + 2 * (scaleInvert (timeContext (zoomView pixelToTime e v)) (WavesEvent.x e)
         - scaleInvert (timeContext v) (WavesEvent.x e)).
Proof.
  intros Hk Hs Hdx.
  destruct v as [[o s k]]; simpl in *.
  unfold zoomView, pixelToTime, scaleInvert; simpl.
  pose proof (floor_positive (s + WavesEvent.dy e / 100)) as Hs'.
  set (s' := Qmax (s + WavesEvent.dy e / 100) (1 # 100)) in *.
  rewrite Hdx.
  field.
  repeat split; apply pos_nonzero; assumption.
Qed.

(** The same step when [xScale.invert] is the bare scale: the time under
    the pointer still moves, by twice the change of the scaled position. *)
Lemma zoomView_pointer_time_bare_scale (e : WavesEvent.t) (v : View) :
  0 < pixelsPerSecond (timeContext v) ->
  0 < stretchRatio (timeContext v) ->
  WavesEvent.dx e == 0 ->
  pixelToTime (timeContext (zoomView scaleInvert e v)) (WavesEvent.x e) ==
  pixelToTime (timeContext v) (WavesEvent.x e)
  + 2 * (scaleInvert (timeContext (zoomView scaleInvert e v)) (WavesEvent.x e)
         - scaleInvert (timeContext v) (WavesEvent.x e)).
Proof.
  intros Hk Hs Hdx.
  destruct v as [[o s k]]; simpl in *.
  unfold zoomView, pixelToTime, scaleInvert; simpl.
  pose proof (floor_positive (s + WavesEvent.dy e / 100)) as Hs'.
  set (s' := Qmax (s + WavesEvent.dy e / 100) (1 # 100)) in *.
  rewrite Hdx.
  field.
  repeat split; apply pos_nonzero; assumption.
Qed.

(** The sign of the offset matters.  Were the offset added to the
    inverse scale, as in the formula of the spec for [pixelToTime], the
    step would move the time under the pointer: with 100 pixels per
    second, stretch ratio 1 and offset 0 the formula gives 1 s at pixel
    100 before the step and 0 s after a step with [dx = 0] and
    [dy = 100], whether [xScale.invert] is that formula or the bare
    scale. *)
Remark onMouseMove_moves_time_under_pointer :
  let e := mousemove 100 0 100 in
  let st := dragging [unitView] in
  Forall2 Qeq (pointerTimes 100 st) [1] /\
  Forall2 Qeq (pointerTimes 100 (onMouseMove pixelToTime e st)) [0] /\
  Forall2 Qeq (pointerTimes 100 (onMouseMove scaleInvert e st)) [0] /\
  ~ Forall2 Qeq (pointerTimes 100 (onMouseMove pixelToTime e st))
                (pointerTimes 100 st) /\
  ~ Forall2 Qeq (pointerTimes 100 (onMouseMove scaleInvert e st))
                (pointerTimes 100 st).
Proof.
  repeat split; try (repeat constructor; reflexivity);
    intros H; inversion H as [| a b l l' Hab Hrest]; discriminate Hab.
Qed.







(** C8: after a mousemove step with the mouse down, every view's stored
    stretch ratio is at least 0.01, for every zoom delta [dy] and every
    stretch ratio before the step. *)
Theorem onMouseMove_stretchRatio_floor (inv : TimeContext -> Q -> Q)
    (e : WavesEvent.t) (st : State) :
  mouseDown st = true ->
  Forall (fun v => (1 # 100) <= stretchRatio (timeContext v))
         (views (onMouseMove inv e st)).
Proof.
  intros Hdown. unfold onMouseMove. rewrite Hdown. simpl.
  induction (views st) as [| v vs IH]; simpl; constructor; [| exact IH].
  rewrite zoomView_stretchRatio. apply Q.le_max_r.
Qed.

Lemma onMouseMove_stretchRatio_floor_witness :
  let st := dragging [unitView; {| timeContext := set_stretchRatio unitContext (-3) |}] in
  mouseDown st = true /\
  Forall (fun v => (1 # 100) <= stretchRatio (timeContext v))
         (views (onMouseMove pixelToTime (mousemove 100 0 (-500)) st)).
Proof.
  split; [reflexivity |].
  apply (onMouseMove_stretchRatio_floor pixelToTime (mousemove 100 0 (-500))
           (dragging [unitView;
                      {| timeContext := set_stretchRatio unitContext (-3) |}])).
  reflexivity.
Defined.

(** C9: an event whose type is none of mousedown, mousemove, mouseup
    leaves the state, its views and their time contexts as they were;
    [handleEvent] is a total function, so nothing is thrown. *)
Theorem handleEvent_unrecognized_type (inv : TimeContext -> Q -> Q)
    (e : WavesEvent.t) (st : State) :
  WavesEvent.type e <> "mousedown" ->
  WavesEvent.type e <> "mousemove" ->
  WavesEvent.type e <> "mouseup" ->
  handleEvent inv e st = st.
Proof.
  intros Hd Hm Hu. unfold handleEvent.
  apply String.eqb_neq in Hd, Hm, Hu.
  rewrite Hd, Hm, Hu. reflexivity.
Qed.

Lemma handleEvent_unrecognized_type_witness :
  handleEvent pixelToTime (wheel 100 120) (dragging [unitView])
  = dragging [unitView].
Proof.
  apply (handleEvent_unrecognized_type pixelToTime (wheel 100 120)
           (dragging [unitView])); discriminate.
Defined.

(** *** Sequences of events *)

Lemma handleEvent_cases (inv : TimeContext -> Q -> Q) (e : WavesEvent.t)
    (st : State) :
  handleEvent inv e st = onMouseDown e st /\ typed "mousedown" e \/
  handleEvent inv e st = onMouseMove inv e st /\ typed "mousemove" e \/
  handleEvent inv e st = onMouseUp e st /\ typed "mouseup" e \/
  handleEvent inv e st = st.
Proof.
  unfold handleEvent, typed.
  destruct (String.eqb_spec (WavesEvent.type e) "mousedown");
    [left; auto |].
  destruct (String.eqb_spec (WavesEvent.type e) "mousemove");
    [right; left; auto |].
  destruct (String.eqb_spec (WavesEvent.type e) "mouseup");
    [right; right; left; auto | right; right; right; reflexivity].
Qed.

(** X1: The floor of the stretch ratio is kept by every handler, hence over
    any sequence of events of any type: views that start at 0.01 or above
    never go below. *)
Theorem stretchRatio_floor_kept (inv : TimeContext -> Q -> Q)
    (es : list WavesEvent.t) :
  forall st : State,
  Forall (fun v => (1 # 100) <= stretchRatio (timeContext v)) (views st) ->
  Forall (fun v => (1 # 100) <= stretchRatio (timeContext v))
         (views (handleEvents inv es st)).
Proof.
  induction es as [| e es IH]; intros st Hfloor; [exact Hfloor |].
  apply IH.
  destruct (handleEvent_cases inv e st)
    as [[-> _] | [[-> _] | [[-> _] | ->]]]; try exact Hfloor.
  unfold onMouseMove. destruct (mouseDown st); simpl; [| exact Hfloor].
  clear Hfloor. induction (views st) as [| v vs IHv]; simpl; constructor;
    [| exact IHv].
  rewrite zoomView_stretchRatio. apply Q.le_max_r.
Qed.

Lemma stretchRatio_floor_kept_witness :
  Forall (fun v => (1 # 100) <= stretchRatio (timeContext v))
         (views (handleEvents pixelToTime
                   [withType "mousedown" (mousemove 100 0 0);
                    mousemove 100 0 (-500); wheel 100 120;
                    withType "mouseup" (mousemove 100 0 0)]
                   (dragging [unitView]))).
Proof.
  apply (stretchRatio_floor_kept pixelToTime).
  repeat constructor. apply Qle_bool_imp_le. reflexivity.
Defined.

(** X2: Without a mousedown nothing happens: from a state whose mouse is up,
    a sequence of events none of which is a mousedown leaves the state,
    its views and their time contexts as they are, and requests no
    update. *)
Theorem no_zoom_without_mousedown (inv : TimeContext -> Q -> Q)
    (es : list WavesEvent.t) (st : State) :
  mouseDown st = false ->
  Forall (fun e => ~ typed "mousedown" e) es ->
  handleEvents inv es st = st.
Proof.
  intros Hup Hes. induction Hes as [| e es He Hes IH]; [reflexivity |].
  simpl.
  assert (Hsame : handleEvent inv e st = st).
  { destruct (handleEvent_cases inv e st)
      as [[_ Hd] | [[-> _] | [[-> _] | ->]]]; [contradiction | | |];
      try reflexivity.
    - unfold onMouseMove. rewrite Hup. reflexivity.
    - destruct st; simpl in *. subst. reflexivity. }
  rewrite Hsame. exact IH.
Qed.

Lemma no_zoom_without_mousedown_witness :
  handleEvents pixelToTime
    [mousemove 100 0 50; withType "mouseup" (mousemove 100 0 0);
     mousemove 120 20 (-30); wheel 100 120]
    (onMouseUp (mousemove 0 0 0) (dragging [unitView]))
  = onMouseUp (mousemove 0 0 0) (dragging [unitView]).
Proof.
  apply (no_zoom_without_mousedown pixelToTime); [reflexivity |].
  repeat constructor; discriminate.
Defined.

Lemma handleEvents_app (inv : TimeContext -> Q -> Q)
    (es1 es2 : list WavesEvent.t) (st : State) :
  handleEvents inv (es1 ++ es2) st
  = handleEvents inv es2 (handleEvents inv es1 st).
Proof. apply fold_left_app. Qed.

(** Mousemove events while the mouse is down rescale all the views, one
    event after the other, and request one update each. *)
Lemma handleEvents_moves (inv : TimeContext -> Q -> Q)
    (moves : list WavesEvent.t) :
  forall st : State,
  mouseDown st = true ->
  Forall (typed "mousemove") moves ->
  handleEvents inv moves st =
  {| mouseDown := true; currentLayer := currentLayer st;
     views := zoomViews inv moves (views st);
     updateRequests := (updateRequests st + length moves)%nat |}.
Proof.
  induction moves as [| e moves IH]; intros st Hdown Hmoves.
  - simpl. rewrite Nat.add_0_r. destruct st; simpl in *. subst. reflexivity.
  - inversion Hmoves as [| ? ? He Hrest]; subst. simpl.
    assert (Hstep : handleEvent inv e st = onMouseMove inv e st).
    { unfold handleEvent. unfold typed in He. rewrite He. reflexivity. }
    rewrite Hstep. unfold onMouseMove at 1. rewrite Hdown. simpl.
    rewrite IH by (try reflexivity; assumption). simpl.
    rewrite ?Hdown. f_equal. lia.
Qed.

Lemma handleEvents_moves_up (inv : TimeContext -> Q -> Q)
    (moves : list WavesEvent.t) (st : State) :
  mouseDown st = false ->
  Forall (typed "mousemove") moves ->
  handleEvents inv moves st = st.
Proof.
  intros Hup Hmoves. induction Hmoves as [| e es He Hes IH]; [reflexivity |].
  simpl.
  assert (Hstep : handleEvent inv e st = st).
  { unfold handleEvent. unfold typed in He. rewrite He. simpl.
    unfold onMouseMove. rewrite Hup. reflexivity. }
  rewrite Hstep. exact IH.
Qed.

(** X3: A whole gesture: after a mousedown, the mousemove events up to the
    mouseup rescale all the views in turn and request one update each;
    the mousemove events that follow the mouseup change nothing. *)
Theorem gesture_zooms_between_down_and_up (inv : TimeContext -> Q -> Q)
    (down up : WavesEvent.t) (moves later : list WavesEvent.t)
    (st : State) :
  typed "mousedown" down ->
  typed "mouseup" up ->
  Forall (typed "mousemove") moves ->
  Forall (typed "mousemove") later ->
  handleEvents inv (down :: moves ++ up :: later) st =
  {| mouseDown := false; currentLayer := currentLayer st;
     views := zoomViews inv moves (views st);
     updateRequests := (updateRequests st + length moves)%nat |}.
Proof.
  intros Hdown Hup Hmoves Hlater.
  change (down :: moves ++ up :: later)
    with ([down] ++ moves ++ [up] ++ later).
  rewrite !handleEvents_app.
  assert (H1 : handleEvents inv [down] st = onMouseDown down st).
  { simpl. unfold handleEvent. unfold typed in Hdown. rewrite Hdown.
    reflexivity. }
  rewrite H1, (handleEvents_moves inv moves) by (reflexivity || assumption).
  simpl (handleEvents inv [up] _).
  assert (H2 : forall st', handleEvent inv up st' = onMouseUp up st').
  { intros st'. unfold handleEvent. unfold typed in Hup. rewrite Hup.
    reflexivity. }
  rewrite H2. unfold onMouseUp, onMouseDown. simpl.
  apply handleEvents_moves_up; [reflexivity | exact Hlater].
Qed.

Lemma gesture_zooms_between_down_and_up_witness :
  handleEvents pixelToTime
    (withType "mousedown" (mousemove 100 0 0)
     :: [mousemove 100 0 100; mousemove 100 0 (-50)]
     ++ withType "mouseup" (mousemove 100 0 0) :: [mousemove 100 0 300])
    (onMouseUp (mousemove 0 0 0) (dragging [unitView]))
  = {| mouseDown := false; currentLayer := None;
       views := zoomViews pixelToTime
                  [mousemove 100 0 100; mousemove 100 0 (-50)] [unitView];
       updateRequests := 2 |}.
Proof.
  apply (gesture_zooms_between_down_and_up pixelToTime
           (withType "mousedown" (mousemove 100 0 0))
           (withType "mouseup" (mousemove 100 0 0))
           [mousemove 100 0 100; mousemove 100 0 (-50)]
           [mousemove 100 0 300]
           (onMouseUp (mousemove 0 0 0) (dragging [unitView])));
    repeat constructor.
Defined.

End CenteredZoomProofs.

(** ** Timeline *)

Module TimelineProofs.

Import Timeline.

(** Unfolds the combinators of [M] in the goal. *)
Ltac run :=
  unfold mbind, M_bind, mret, M_ret, gets, modify, call, throw, deref;
  simpl.

Lemma with_calls_same (w : World) : with_calls (calls w) w = w.
Proof. destruct w; reflexivity. Qed.

Lemma with_calls_twice (c1 c2 : list Call) (w : World) :
  with_calls c2 (with_calls c1 w) = with_calls c2 w.
Proof. reflexivity. Qed.

(** The [layers] getter returns, and leaves the world as it is. *)
Lemma collectLayers_run (w : World) (tracks : list TrackRef) :
  validTracks w tracks = true ->
  collectLayers tracks w = (Return (layersOfTracks (trackStore w) tracks), w).
Proof.
  induction tracks as [| t ts IH]; simpl; intros Hv; [reflexivity |].
  apply andb_true_iff in Hv as [Ht Hts].
  run. destruct (trackStore w !! t) as [o |]; [| discriminate].
  rewrite (IH Hts). reflexivity.
Qed.

Lemma validLayers_app (store : list Layer.t) (l1 l2 : list LayerRef) :
  validLayers store (l1 ++ l2) = validLayers store l1 && validLayers store l2.
Proof. apply forallb_app. Qed.

Lemma validTracks_layers (w : World) (tracks : list TrackRef) :
  validTracks w tracks = true ->
  validLayers (layerStore w) (layersOfTracks (trackStore w) tracks) = true.
Proof.
  induction tracks as [| t ts IH]; simpl; intros Hv; [reflexivity |].
  apply andb_true_iff in Hv as [Ht Hts].
  rewrite validLayers_app, (IH Hts).
  destruct (trackStore w !! t); [rewrite Ht; reflexivity | discriminate].
Qed.

(** The hit-testing loop: it returns the layers found so far followed by
    the hittable layers whose rectangle contains the point, in order, and
    has read the rectangle of every hittable layer. *)
Lemma getHitLayers_forEach_run (cx cy : Q) (todo : list LayerRef) :
  forall (found : list LayerRef) (w : World),
  validLayers (layerStore w) todo = true ->
  getHitLayers_forEach cx cy todo found w =
  (Return (found ++ List.filter
                      (fun l => hittableIn (layerStore w) l &&
                                rectContains (layerStore w) cx cy l) todo),
   with_calls (calls w ++ List.map GetBoundingClientRect
                            (List.filter (hittableIn (layerStore w)) todo)) w).
Proof.
  induction todo as [| l todo IH]; simpl; intros found w Hv.
  - rewrite !app_nil_r, with_calls_same. reflexivity.
  - apply andb_true_iff in Hv as [Hl Hv].
    apply bool_decide_eq_true in Hl as [o Ho].
    assert (Hh : hittableIn (layerStore w) l = Layer.params_hittable o)
      by (unfold hittableIn; rewrite Ho; reflexivity).
    assert (Hr : rectContains (layerStore w) cx cy l
                 = inside (Layer.boundingClientRect o) cx cy)
      by (unfold rectContains; rewrite Ho; reflexivity).
    rewrite Hh, Hr. run. rewrite Ho.
    destruct (Layer.params_hittable o); simpl.
    + rewrite Ho.
      destruct (inside (Layer.boundingClientRect o) cx cy); simpl;
        rewrite IH by exact Hv; simpl; rewrite <- !app_assoc; reflexivity.
    + apply IH, Hv.
Qed.

(** One dispatch: the DOM reads of hit-testing, then the public emission,
    then the call to the active state, all with the same [hitLayers]. *)
Lemma handleEvent_run (e : WavesEvent.t) (w : World) :
  validRefs w = true ->
  _handleEvent e w =
  (Return tt,
   with_calls (calls w ++ hitTestCalls e w
               ++ Emit e (hitLayersOf e w)
                  :: forwardCalls (_state w) e (hitLayersOf e w)) w).
Proof.
  intros Hv. unfold _handleEvent, getHitLayers, hitLayersOf, hitTestCalls.
  fold (fromSurface e). fold (pointerX e). fold (pointerY e).
  destruct (fromSurface e); run.
  - rewrite (collectLayers_run w (_tracks w) Hv).
    rewrite getHitLayers_forEach_run by exact (validTracks_layers w _ Hv).
    simpl. fold (layersOf w).
    destruct (_state w); run; rewrite <- !app_assoc; reflexivity.
  - destruct (_state w); run; rewrite <- ?app_assoc; reflexivity.
Qed.

Lemma newCalls_handleEvent (e : WavesEvent.t) (w : World) :
  validRefs w = true ->
  newCalls (_handleEvent e) w =
  hitTestCalls e w ++ Emit e (hitLayersOf e w)
                      :: forwardCalls (_state w) e (hitLayersOf e w).
Proof.
  intros Hv. unfold newCalls, exec. rewrite (handleEvent_run e w Hv).
  simpl. apply drop_app_length.
Qed.

(** The state setter: exit of the old state, the assignment, enter of the
    new state. *)
Lemma set_state_run (new : option StateRef) (w : World) :
  set_state new w =
  (Return tt,
   with_calls (calls w ++ exitCalls (_state w) ++ enterCalls new)
     (with__state new w)).
Proof.
  unfold set_state. run.
  destruct (_state w), new; run; rewrite <- ?app_assoc, ?app_nil_r;
    reflexivity.
Qed.

Lemma hitTestCalls_plain (e : WavesEvent.t) (w : World) :
  handledBy (hitTestCalls e w) = [] /\
  emitted (hitTestCalls e w) = [] /\
  forwarded (hitTestCalls e w) = [].
Proof.
  unfold hitTestCalls. destruct (fromSurface e); [| repeat split].
  induction (List.filter (hittableIn (layerStore w)) (layersOf w));
    simpl; [repeat split | exact IHl].
Qed.

(** C2: assigning [state] returns normally (also for a null value), calls
    [exit] on the previous state once if there is one and then [enter] on
    the new state if there is one, and leaves the new value in [_state];
    an event dispatched next reaches the [handleEvent] of the new state
    only, and of no state at all after a null assignment. *)
Theorem state_switch_then_dispatch (new : option StateRef)
    (e : WavesEvent.t) (w : World) :
  validRefs w = true ->
  exists w1 w2 dispatched,
    set_state new w = (Return tt, w1) /\
    _state w1 = new /\
    calls w1 = calls w ++ exitCalls (_state w) ++ enterCalls new /\
    _handleEvent e w1 = (Return tt, w2) /\
    calls w2 = calls w1 ++ dispatched /\
    handledBy dispatched = match new with Some s => [s] | None => [] end /\
    (forall old, _state w = Some old -> new <> Some old ->
                 ~ In old (handledBy dispatched)).
Proof.
  intros Hv.
  set (w1 := with_calls (calls w ++ exitCalls (_state w) ++ enterCalls new)
               (with__state new w)).
  assert (Hv1 : validRefs w1 = true) by exact Hv.
  pose proof (handleEvent_run e w1 Hv1) as Hrun.
  destruct (hitTestCalls_plain e w1) as (Hplain & _ & _).
  assert (Hby : handledBy (hitTestCalls e w1
                  ++ Emit e (hitLayersOf e w1)
                     :: forwardCalls (_state w1) e (hitLayersOf e w1))
                = match new with Some s => [s] | None => [] end).
  { unfold handledBy in *. rewrite flat_map_app, Hplain. simpl.
    destruct new; reflexivity. }
  eexists w1, _, _. split; [apply set_state_run |].
  split; [reflexivity |]. split; [reflexivity |].
  split; [exact Hrun |]. split; [reflexivity |].
  split; [exact Hby |].
  intros old Hold Hne Hin. rewrite Hby in Hin.
  destruct new as [s |]; simpl in Hin; [| exact Hin].
  destruct Hin as [-> | []]. apply Hne. reflexivity.
Qed.

Lemma state_switch_then_dispatch_witness :
  validRefs (exec (set_state (Some 7)) twoLayers) = true /\
  exists w1 w2 dispatched,
    set_state (Some 8) (exec (set_state (Some 7)) twoLayers)
    = (Return tt, w1) /\
    calls w2 = calls w1 ++ dispatched /\
    handledBy dispatched = [8] /\
    ~ In 7 (handledBy dispatched).
Proof.
  split; [reflexivity |].
  destruct (state_switch_then_dispatch (Some 8)
              (pointerEvent "mousedown" "surface" 10 10)
              (exec (set_state (Some 7)) twoLayers) eq_refl)
    as (w1 & w2 & dispatched & Hset & _ & _ & _ & Hcalls & Hby & Hold).
  exists w1, w2, dispatched. repeat split; try assumption.
  apply (Hold 7); [reflexivity | discriminate].
Defined.

(** C3 as stated fails: the public emission is not the first thing a
    dispatch does.  For an event from the surface over a hittable layer
    the bounding rectangle of the layer is read before the emission. *)
Lemma emission_is_not_first :
  ~ (forall (e : WavesEvent.t) (w : World),
       validRefs w = true ->
       exists hitLayers rest,
         newCalls (_handleEvent e) w = Emit e hitLayers :: rest).
Proof.
  intros H.
  destruct (H (pointerEvent "mousedown" "surface" 10 10) twoLayers eq_refl)
    as (hitLayers & rest & Hcalls).
  rewrite newCalls_handleEvent in Hcalls by reflexivity.
  vm_compute in Hcalls. discriminate Hcalls.
Qed.

(** C3, amended: a dispatch returns normally and makes, in this order, the
    DOM reads of hit-testing (none unless the event is from the surface),
    the public emission of the event with [hitLayers], and, when a state
    is active, the call of its [handleEvent] with the same event and
    [hitLayers]; the emission is made whether or not a state is active. *)
Theorem handleEvent_dispatch_order (e : WavesEvent.t) (w : World) :
  validRefs w = true ->
  exists w',
    _handleEvent e w = (Return tt, w') /\
    calls w' = calls w ++ hitTestCalls e w
                       ++ [Emit e (hitLayersOf e w)]
                       ++ forwardCalls (_state w) e (hitLayersOf e w) /\
    (fromSurface e = false -> hitTestCalls e w = []) /\
    (_state w = None ->
     calls w' = calls w ++ hitTestCalls e w ++ [Emit e (hitLayersOf e w)]).
Proof.
  intros Hv. eexists. split; [apply (handleEvent_run e w Hv) |].
  split; [reflexivity |]. split.
  - intros Hs. unfold hitTestCalls. rewrite Hs. reflexivity.
  - intros Hs. simpl. rewrite Hs. reflexivity.
Qed.

Lemma handleEvent_dispatch_order_witness :
  validRefs twoLayers = true /\
  fromSurface (pointerEvent "keydown" "keyboard" 10 10) = false /\
  _state twoLayers = None /\
  exists w',
    _handleEvent (pointerEvent "keydown" "keyboard" 10 10) twoLayers
    = (Return tt, w') /\
    hitTestCalls (pointerEvent "keydown" "keyboard" 10 10) twoLayers = [] /\
    calls w' = calls twoLayers
               ++ hitTestCalls (pointerEvent "keydown" "keyboard" 10 10)
                               twoLayers
               ++ [Emit (pointerEvent "keydown" "keyboard" 10 10)
                        (hitLayersOf (pointerEvent "keydown" "keyboard" 10 10)
                                     twoLayers)].
Proof.
  split; [reflexivity |]. split; [reflexivity |]. split; [reflexivity |].
  destruct (handleEvent_dispatch_order
              (pointerEvent "keydown" "keyboard" 10 10) twoLayers eq_refl)
    as (w' & Hrun & _ & Hkey & Hidle).
  exists w'. split; [exact Hrun |].
  split; [exact (Hkey eq_refl) | exact (Hidle eq_refl)].
Defined.

(** C6 as stated fails on two inputs.  A layer that is not hittable and
    lies under the pointer is left out of [hitLayers]; and for an event
    that is not from the surface [hitLayers] is [null], not an empty
    collection. *)
Lemma hitLayers_not_as_specified :
  let w := exec (set_state (Some 7)) twoLayers in
  let click := pointerEvent "mousedown" "surface" 10 10 in
  let key := pointerEvent "keydown" "keyboard" 10 10 in
  (emitted (newCalls (_handleEvent click) w) = [Some [0]] /\
   forwarded (newCalls (_handleEvent click) w) = [Some [0]] /\
   spec_hitLayers click w = Some [0; 1] /\
   emitted (newCalls (_handleEvent click) w) <> [spec_hitLayers click w]) /\
  (emitted (newCalls (_handleEvent key) w) = [None] /\
   forwarded (newCalls (_handleEvent key) w) = [None] /\
   spec_hitLayers key w = Some [] /\
   emitted (newCalls (_handleEvent key) w) <> [spec_hitLayers key w]).
Proof. vm_compute. repeat split; discriminate. Qed.

(** C6, amended: the [hitLayers] value given to the public emission and to
    the active state is the same.  For an event from the surface it is the
    array, in the order of the timeline's layers, of exactly the layers
    that are hittable and whose bounding rectangle strictly contains the
    pointer position, hence an empty array when there is none; for any
    other event it is [null]. *)
Theorem hitLayers_passed (e : WavesEvent.t) (w : World) :
  validRefs w = true ->
  emitted (newCalls (_handleEvent e) w) = [hitLayersOf e w] /\
  forwarded (newCalls (_handleEvent e) w)
  = match _state w with Some _ => [hitLayersOf e w] | None => [] end /\
  (fromSurface e = true ->
   exists ls,
     hitLayersOf e w = Some ls /\
     ls = List.filter
            (fun l => hittableIn (layerStore w) l &&
                      rectContains (layerStore w) (pointerX e) (pointerY e) l)
            (layersOf w) /\
     (forall l, In l ls <->
                In l (layersOf w) /\
                hittableIn (layerStore w) l = true /\
                rectContains (layerStore w) (pointerX e) (pointerY e) l
                = true)) /\
  (fromSurface e = false -> hitLayersOf e w = None).
Proof.
  intros Hv. rewrite (newCalls_handleEvent e w Hv).
  destruct (hitTestCalls_plain e w) as (_ & Hem & Hfw).
  unfold emitted, forwarded in *. rewrite !flat_map_app, Hem, Hfw.
  split; [destruct (_state w); reflexivity |].
  split; [destruct (_state w); reflexivity |].
  unfold hitLayersOf. split; intros Hs; rewrite Hs; [| reflexivity].
  eexists. split; [reflexivity |]. split; [reflexivity |].
  intros l. rewrite filter_In, andb_true_iff. reflexivity.
Qed.

Lemma hitLayers_passed_witness :
  validRefs twoLayers = true /\
  fromSurface (pointerEvent "mousedown" "surface" 10 10) = true /\
  fromSurface (pointerEvent "keydown" "keyboard" 10 10) = false /\
  emitted (newCalls (_handleEvent (pointerEvent "mousedown" "surface" 10 10))
                    twoLayers)
  = [hitLayersOf (pointerEvent "mousedown" "surface" 10 10) twoLayers] /\
  (exists ls,
     hitLayersOf (pointerEvent "mousedown" "surface" 10 10) twoLayers
     = Some ls) /\
  hitLayersOf (pointerEvent "keydown" "keyboard" 10 10) twoLayers = None.
Proof.
  split; [reflexivity |]. split; [reflexivity |]. split; [reflexivity |].
  destruct (hitLayers_passed (pointerEvent "mousedown" "surface" 10 10)
              twoLayers eq_refl) as (Hem & _ & Hsurface & _).
  destruct (hitLayers_passed (pointerEvent "keydown" "keyboard" 10 10)
              twoLayers eq_refl) as (_ & _ & _ & Hother).
  split; [exact Hem |].
  split; [| exact (Hother eq_refl)].
  destruct (Hsurface eq_refl) as (ls & Hls & _).
  exists ls. exact Hls.
Defined.

(** [add] of a track that is in the collection already: the error is
    thrown with the world untouched. *)
Lemma add_duplicate (track : TrackRef) (w : World) :
  In track (_tracks w) -> add track w = (Throw TrackAlreadyAdded, w).
Proof.
  intros Hin. unfold add. run.
  rewrite bool_decide_eq_true_2 by (apply list_elem_of_In; exact Hin).
  reflexivity.
Qed.

(** [createTrack] with an id that is taken: the error is thrown in the
    world [new Track] has left behind. *)
Lemma createTrack_duplicate (el : NodeRef) (trackHeight : Q) (id : string)
    (t : TrackRef) (w : World) :
  _trackById w !! id = Some t ->
  createTrack el trackHeight (Some id) w =
  (Throw (TrackIdAlreadyUsed id), exec (newTrack el trackHeight) w).
Proof.
  intros Hid. unfold createTrack, exec. run. rewrite Hid. reflexivity.
Qed.

(** C7 as stated fails for [createTrack]: when the id is taken, the error
    is thrown after a track has been constructed; the world is not the one
    before the call. *)
Lemma createTrack_duplicate_constructs_track :
  ~ (forall (el : NodeRef) (trackHeight : Q) (id : string) (w : World),
       is_Some (_trackById w !! id) ->
       exists err, createTrack el trackHeight (Some id) w = (Throw err, w)).
Proof.
  intros H.
  destruct (H 1 100%Q "main" oneTrack) as [err Herr].
  { exists 0. reflexivity. }
  apply (f_equal (fun r => length (trackStore (snd r)))) in Herr.
  vm_compute in Herr. discriminate Herr.
Qed.

(** C7, amended: [add] of a track already in the collection throws and the
    world is exactly as before.  [createTrack] with a registered id throws
    once [new Track($el, trackHeight)] has run and nothing else has: the
    new track object exists in the store, and the collection, the id map,
    the groups, the state and the other stores are as before, with no
    track configured and no interaction created. *)
Theorem configuration_errors (w : World) :
  (forall track, In track (_tracks w) ->
     add track w = (Throw TrackAlreadyAdded, w)) /\
  (forall el trackHeight id t, _trackById w !! id = Some t ->
     exists w',
       createTrack el trackHeight (Some id) w
       = (Throw (TrackIdAlreadyUsed id), w') /\
       newTrack el trackHeight w = (Return (length (trackStore w)), w') /\
       calls w' = calls w ++ [NewTrack el trackHeight (length (trackStore w))] /\
       trackStore w' =
         trackStore w ++ [ {| Track.el := el; Track.svg := domSize w;
                              Track.height := trackHeight;
                              Track.layers := [];
                              Track.renderingContext := None |} ] /\
       _tracks w' = _tracks w /\
       _trackById w' = _trackById w /\
       _groupedLayers w' = _groupedLayers w /\
       _state w' = _state w /\
       layerStore w' = layerStore w /\
       contextStore w' = contextStore w).
Proof.
  split.
  - intros track Hin. apply add_duplicate, Hin.
  - intros el trackHeight id t Hid.
    exists (exec (newTrack el trackHeight) w).
    split; [apply (createTrack_duplicate el trackHeight id t w Hid) |].
    repeat split.
Qed.

Lemma configuration_errors_witness :
  In 0 (_tracks oneTrack) /\
  _trackById oneTrack !! "main" = Some 0 /\
  add 0 oneTrack = (Throw TrackAlreadyAdded, oneTrack) /\
  exists w',
    createTrack 1 100 (Some "main") oneTrack
    = (Throw (TrackIdAlreadyUsed "main"), w') /\
    _tracks w' = _tracks oneTrack.
Proof.
  assert (Hin : In 0 (_tracks oneTrack)) by (left; reflexivity).
  assert (Hid : _trackById oneTrack !! "main" = Some 0) by reflexivity.
  destruct (configuration_errors oneTrack) as [Hadd Hcreate].
  destruct (Hcreate 1 100%Q "main" 0 Hid)
    as (w' & Hthrow & _ & _ & _ & Htracks & _).
  split; [exact Hin |]. split; [exact Hid |].
  split; [exact (Hadd 0 Hin) |].
  exists w'. split; assumption.
Defined.

(** The loop of [getTrackFromDOMElement] runs off the end of the chain of
    ancestors when no element of the chain carries the class. *)
Lemma closestTrackElement_unmarked (el : DOMNode) :
  hasTrackAncestor el = false -> closestTrackElement el = Throw TypeError.
Proof.
  induction el as [| | id classList parentNode IH]; simpl; intros Hm;
    try reflexivity.
  apply orb_false_iff in Hm as [Hc Hp]. rewrite Hc. apply IH, Hp.
Qed.

Lemma closestTrackElement_marked (el : DOMNode) :
  hasTrackAncestor el = true -> exists id, closestTrackElement el = Return id.
Proof.
  induction el as [| | id classList parentNode IH]; simpl; intros Hm;
    try discriminate.
  destruct (bool_decide ("track" ∈ classList)); [exists id; reflexivity |].
  apply IH, Hm.
Qed.

Lemma getTrackFromDOMElement_unmarked (el : DOMNode) (w : World) :
  hasTrackAncestor el = false ->
  getTrackFromDOMElement el w = (Throw TypeError, w).
Proof.
  intros Hm. unfold getTrackFromDOMElement. run.
  rewrite (closestTrackElement_unmarked el Hm). reflexivity.
Qed.

(** C4, at the failing inputs: for an element of the document none of
    whose ancestors carries the class [track], and for a detached element
    without it, [getTrackFromDOMElement] throws a [TypeError] in every
    world; it does not return an absent result. *)
Theorem getTrackFromDOMElement_without_marker_throws (w : World) :
  getTrackFromDOMElement
    (Element 7 ["layer"] (Element 3 ["container"] Document)) w
  = (Throw TypeError, w) /\
  getTrackFromDOMElement (Element 7 ["layer"] Null) w
  = (Throw TypeError, w).
Proof.
  split; apply getTrackFromDOMElement_unmarked; reflexivity.
Qed.

(** With a marked ancestor the method returns, with the track of the
    collection whose [$svg] is that element, or with [null] when there is
    none. *)
Lemma findTrack_run (w : World) (svg : NodeRef) (tracks : list TrackRef) :
  forall track : option TrackRef,
  validTracks w tracks = true ->
  findTrack svg tracks track w
  = (Return (trackOfSvg (trackStore w) svg tracks track), w).
Proof.
  induction tracks as [| t ts IH]; simpl; intros track Hv; [reflexivity |].
  apply andb_true_iff in Hv as [Ht Hts].
  unfold trackOfSvg. run.
  destruct (trackStore w !! t) as [o |]; [| discriminate].
  apply IH, Hts.
Qed.

Lemma getTrackFromDOMElement_marked (el : DOMNode) (w : World) :
  hasTrackAncestor el = true ->
  validRefs w = true ->
  exists svg,
    closestTrackElement el = Return svg /\
    getTrackFromDOMElement el w
    = (Return (trackOfSvg (trackStore w) svg (_tracks w) None), w).
Proof.
  intros Hm Hv.
  destruct (closestTrackElement_marked el Hm) as [svg Hsvg].
  exists svg. split; [exact Hsvg |].
  unfold getTrackFromDOMElement. run. rewrite Hsvg.
  apply findTrack_run, Hv.
Qed.

Ltac split_lookups :=
  repeat match goal with
         | |- context [match ?x !! ?i with _ => _ end] =>
             let E := fresh "E" in destruct (x !! i) eqn:E; simpl
         end.

(** C5: in the world [addLayer] leaves behind, a layer that had no time
    context is bound to the root context itself when [isAxis] is true,
    with the store of contexts unchanged, and otherwise to a context that
    did not exist before, a [LayerTimeContext] whose parent is the root,
    the existing contexts being unchanged; a layer that had a time context
    is left as it was.  With a track that exists and a group id that is
    not the name of a property of [Object.prototype] the call returns
    normally. *)
Theorem addLayer_binds_time_context (layer : LayerRef)
    (trackOrTrackId : TrackRef + string) (groupId : string) (isAxis : bool)
    (w : World) (l : Layer.t) :
  layerStore w !! layer = Some l ->
  let w' := exec (addLayer layer trackOrTrackId groupId isAxis) w in
  timeContext w' = timeContext w /\
  match Layer.timeContext l with
  | Some c =>
      layerStore w' = layerStore w /\ contextStore w' = contextStore w
  | None =>
      if isAxis then
        Layer.timeContext <$> layerStore w' !! layer
        = Some (Some (timeContext w)) /\
        contextStore w' = contextStore w
      else
        Layer.timeContext <$> layerStore w' !! layer
        = Some (Some (length (contextStore w))) /\
        contextStore w !! length (contextStore w) = None /\
        contextStore w' !! length (contextStore w)
        = Some (LayerTimeContext (timeContext w)) /\
        contextStore w' = contextStore w ++ [LayerTimeContext (timeContext w)]
  end /\
  (forall t o, resolveTrack trackOrTrackId w = Some t ->
               trackStore w !! t = Some o ->
               inherited groupId = false ->
               fst (addLayer layer trackOrTrackId groupId isAxis w)
               = Return tt).
Proof.
  intros Hl.
  assert (Hlt : layer < length (layerStore w))
    by (eapply lookup_lt_Some; eauto).
  assert (Hnew : contextStore w !! length (contextStore w) = None)
    by (apply lookup_ge_None; lia).
  assert (Hparent : (contextStore w ++ [LayerTimeContext (timeContext w)])
                    !! length (contextStore w)
                    = Some (LayerTimeContext (timeContext w)))
    by (rewrite lookup_app_r, Nat.sub_diag by lia; reflexivity).
  unfold exec, addLayer, getTrackById, layerSetTimeContext, trackAdd,
    setLayer, setTrack, newLayerTimeContext, resolveTrack.
  destruct trackOrTrackId as [t | id]; run; rewrite Hl;
    (destruct (Layer.timeContext l) as [c |]; [| destruct isAxis]); simpl;
    rewrite ?Hl; simpl; split_lookups;
    try (destruct (inherited groupId); simpl);
    rewrite ?list_lookup_insert_eq by exact Hlt;
    repeat split; try reflexivity; try exact Hnew; try exact Hparent;
    intros; congruence.
Qed.

Lemma addLayer_binds_time_context_witness :
  layerStore oneTrack !! 0 = Some (freshLayer true) /\
  resolveTrack (inr "main") oneTrack = Some 0 /\
  is_Some (trackStore oneTrack !! 0) /\
  Layer.timeContext <$>
    layerStore (exec (addLayer 0 (inr "main") "default" false) oneTrack) !! 0
  = Some (Some 1) /\
  contextStore (exec (addLayer 0 (inr "main") "default" false) oneTrack)
  = [TimelineTimeContext 100 1000; LayerTimeContext 0] /\
  fst (addLayer 0 (inr "main") "default" false oneTrack) = Return tt.
Proof.
  split; [reflexivity |]. split; [reflexivity |].
  split; [eexists; reflexivity |].
  destruct (addLayer_binds_time_context 0 (inr "main") "default" false
              oneTrack (freshLayer true) eq_refl)
    as (_ & (Hbound & _ & _ & Hstore) & Hreturns).
  split; [exact Hbound |]. split; [exact Hstore |].
  eapply Hreturns; reflexivity.
Defined.

(** A group id that is the name of a property of [Object.prototype] and
    not a group: [addLayer] throws a [TypeError] at [push], once the layer
    is in the track. *)
Lemma addLayer_inherited_group :
  fst (addLayer 0 (inr "main") "constructor" false oneTrack) = Throw TypeError /\
  Track.layers <$>
    trackStore (exec (addLayer 0 (inr "main") "constructor" false) oneTrack)
    !! 0 = Some [0] /\
  _groupedLayers (exec (addLayer 0 (inr "main") "constructor" false) oneTrack)
  = _groupedLayers oneTrack.
Proof. vm_compute. repeat split. Qed.

(** A loop over the tracks leaves alone what each of its rounds leaves
    alone. *)
Lemma forEach_preserves {A B : Type} (proj : World -> B) (f : A -> M unit) :
  (forall a w, proj (snd (f a w)) = proj w) ->
  forall l w, proj (snd (forEach f l w)) = proj w.
Proof.
  intros Hf l. induction l as [| a l IH]; intros w; [reflexivity |].
  simpl. run. specialize (Hf a w).
  destruct (f a w) as [[u | err] w1]; simpl in *; [| exact Hf].
  rewrite IH. exact Hf.
Qed.

(** [removeLayer], when it returns, has put every group through one round
    of the clean-up loop. *)
Lemma removeLayer_groups (layer : LayerRef) (w w' : World) :
  removeLayer layer w = (Return tt, w') ->
  _groupedLayers w' = omap (cleanGroup layer) (_groupedLayers w).
Proof.
  unfold removeLayer. run.
  match goal with
  | |- context [forEach ?f ?l w] =>
      pose proof (forEach_preserves _groupedLayers f) as Hkeep;
      specialize (fun H => Hkeep H l w);
      destruct (forEach f l w) as [[u | err] w1]
  end; [| discriminate].
  intros Hrun. injection Hrun as <-. simpl in *.
  rewrite Hkeep; [reflexivity |].
  intros track w0. unfold trackRemove, setTrack. run.
  split_lookups; try reflexivity.
  destruct (bool_decide _); simpl; split_lookups; reflexivity.
Qed.

(** A round of the clean-up loop on a group holding the layer removes the
    first element of the group, whichever it is. *)
Lemma cleanGroup_drops_head (layer : LayerRef) (group : list LayerRef) :
  In layer group ->
  cleanGroup layer group
  = match drop 1 group with [] => None | g => Some g end.
Proof.
  intros Hin. unfold cleanGroup, splice, toInteger_object.
  rewrite bool_decide_eq_true_2 by (apply list_elem_of_In; exact Hin).
  simpl. destruct (drop 1 group); reflexivity.
Qed.

(** The part of C10 that holds: no group is left empty. *)
Lemma removeLayer_no_empty_group (layer : LayerRef) (w w' : World)
    (groupId : string) (group : list LayerRef) :
  removeLayer layer w = (Return tt, w') ->
  _groupedLayers w' !! groupId = Some group ->
  group <> [].
Proof.
  intros Hrun Hgroup. rewrite (removeLayer_groups layer w w' Hrun) in Hgroup.
  rewrite lookup_omap in Hgroup.
  destruct (_groupedLayers w !! groupId) as [g0 |]; [| discriminate].
  simpl in Hgroup. unfold cleanGroup in Hgroup.
  destruct (Nat.eqb _ 0) eqn:Hlen; [discriminate |].
  injection Hgroup as <-. intros Hnil. rewrite Hnil in Hlen. discriminate.
Qed.

(** C10, at the failing input.  Layers 0 and 1 are in the group
    ["default"], in this order; [removeLayer] of layer 1 returns normally
    and leaves the group holding layer 1: it is layer 0, the first of the
    group, that was spliced out. *)
Theorem removeLayer_keeps_layer_in_group :
  _groupedLayers twoLayers !! "default" = Some [0; 1] /\
  fst (removeLayer 1 twoLayers) = Return tt /\
  _groupedLayers (exec (removeLayer 1) twoLayers) !! "default" = Some [1].
Proof. vm_compute. repeat split. Qed.

(** *** Tracks: [add], [remove], [configureSurface], [createTrack] *)

Lemma validTracks_bound (w : World) (tracks : list TrackRef) (t : TrackRef) :
  validTracks w tracks = true -> In t tracks ->
  is_Some (trackStore w !! t).
Proof.
  induction tracks as [| t0 ts IH]; simpl; intros Hv Hin; [destruct Hin |].
  apply andb_true_iff in Hv as [Ht Hts].
  destruct Hin as [-> | Hin]; [| exact (IH Hts Hin)].
  destruct (trackStore w !! t); [eexists; reflexivity | discriminate].
Qed.

(** Validity of a list of tracks depends on the objects behind these
    tracks and on which layers exist, and on nothing else. *)
Lemma validTracks_ext (w1 w2 : World) (tracks : list TrackRef) :
  (forall t, In t tracks ->
     Track.layers <$> trackStore w2 !! t = Track.layers <$> trackStore w1 !! t) ->
  (forall l, is_Some (layerStore w1 !! l) -> is_Some (layerStore w2 !! l)) ->
  validTracks w1 tracks = true -> validTracks w2 tracks = true.
Proof.
  intros Hsame Hlayers.
  induction tracks as [| t ts IH]; simpl; intros Hv; [reflexivity |].
  apply andb_true_iff in Hv as [Ht Hts].
  rewrite IH; [| intros t' Hin; apply Hsame; right; exact Hin | exact Hts].
  rewrite andb_true_r.
  specialize (Hsame t (or_introl eq_refl)).
  destruct (trackStore w1 !! t) as [o1 |]; [| discriminate].
  destruct (trackStore w2 !! t) as [o2 |]; [| discriminate].
  simpl in Hsame. injection Hsame as ->.
  unfold validLayers in *. rewrite forallb_forall in *.
  intros l Hin. apply bool_decide_eq_true.
  apply Hlayers. eapply bool_decide_eq_true, Ht, Hin.
Qed.

(** [add] of a track that is not in the collection. *)
Lemma add_run (track : TrackRef) (o : Track.t) (w : World) :
  ~ In track (_tracks w) ->
  trackStore w !! track = Some o ->
  add track w =
  (Return tt,
   with_calls (calls w ++ [TrackConfigure track (timeContext w);
                           NewInteraction (_surfaceCtor w) (Track.el o)])
     (with__tracks (_tracks w ++ [track])
        (with_trackStore
           (<[track := configured (timeContext w) o]> (trackStore w)) w))).
Proof.
  intros Hnew Ho. unfold add, trackConfigure, setTrack, createInteraction.
  run.
  rewrite bool_decide_eq_false_2
    by (intros Hin; apply Hnew, list_elem_of_In, Hin).
  run. rewrite Ho. simpl.
  rewrite list_lookup_insert_eq by (eapply lookup_lt_Some; eauto).
  simpl. rewrite <- app_assoc. reflexivity.
Qed.

(** X4: A track can be added once.  [add] of a track that is not in the
    collection configures it with the root time context, appends it to
    the collection and builds an interaction on its [$el]; a second
    [add] of the same track throws, also after [remove], which removes
    nothing. *)
Theorem add_once (track : TrackRef) (o : Track.t) (w : World) :
  ~ In track (_tracks w) ->
  trackStore w !! track = Some o ->
  exists w',
    add track w = (Return tt, w') /\
    _tracks w' = _tracks w ++ [track] /\
    calls w' = calls w ++ [TrackConfigure track (timeContext w);
                           NewInteraction (_surfaceCtor w) (Track.el o)] /\
    add track w' = (Throw TrackAlreadyAdded, w') /\
    (remove track ;; add track) w' = (Throw TrackAlreadyAdded, w').
Proof.
  intros Hnew Ho.
  set (w' := with_calls
               (calls w ++ [TrackConfigure track (timeContext w);
                            NewInteraction (_surfaceCtor w) (Track.el o)])
               (with__tracks (_tracks w ++ [track])
                  (with_trackStore
                     (<[track := configured (timeContext w) o]>
                        (trackStore w)) w))).
  assert (Hin : In track (_tracks w'))
    by (apply in_or_app; right; left; reflexivity).
  exists w'. split; [apply (add_run track o w Hnew Ho) |].
  split; [reflexivity |]. split; [reflexivity |].
  split; [apply add_duplicate; exact Hin |].
  unfold remove. run. apply add_duplicate. exact Hin.
Qed.

(** X5: [configureSurface] makes no call and changes the constructor only; the
    next [add] builds its interaction with the constructor given. *)
Theorem configureSurface_then_add (ctor : string) (track : TrackRef)
    (o : Track.t) (w : World) :
  ~ In track (_tracks w) ->
  trackStore w !! track = Some o ->
  exists w',
    (configureSurface ctor ;; add track) w = (Return tt, w') /\
    _surfaceCtor w' = ctor /\
    calls w' = calls w ++ [TrackConfigure track (timeContext w);
                           NewInteraction ctor (Track.el o)].
Proof.
  intros Hnew Ho. unfold configureSurface. run.
  rewrite (add_run track o (with__surfaceCtor ctor w) Hnew Ho).
  eexists. split; [reflexivity |]. split; reflexivity.
Qed.

Lemma validTracks_app (w : World) (ts1 ts2 : list TrackRef) :
  validTracks w (ts1 ++ ts2) = validTracks w ts1 && validTracks w ts2.
Proof. apply forallb_app. Qed.

(** A new track without layers, appended to the store and to the
    collection, keeps the references valid. *)
Lemma validRefs_new_track (w w' : World) (o : Track.t) :
  trackStore w' = trackStore w ++ [o] ->
  Track.layers o = [] ->
  layerStore w' = layerStore w ->
  _tracks w' = _tracks w ++ [length (trackStore w)] ->
  validRefs w = true -> validRefs w' = true.
Proof.
  intros Hstore Hlayers Hls Htracks Hv. unfold validRefs.
  rewrite Htracks, validTracks_app. apply andb_true_iff. split.
  - apply (validTracks_ext w); [| rewrite Hls; auto | exact Hv].
    intros t Hin. destruct (validTracks_bound w _ _ Hv Hin) as [o' Ho'].
    rewrite Hstore, lookup_app_l by (eapply lookup_lt_Some, Ho').
    reflexivity.
  - simpl. rewrite Hstore, lookup_app_r, Nat.sub_diag by lia. simpl.
    rewrite Hlayers. reflexivity.
Qed.

(** X6: [createTrack] without an id or with an id that is free and is not
    the name of a property of [Object.prototype], in a world of valid
    references: it returns the new track, which is the last of the
    collection, is registered under the id and under no other, and has
    been configured, given an interaction built with the surface
    constructor, rendered and updated, in this order; the references stay
    valid. *)
Theorem createTrack_fresh (el : NodeRef) (trackHeight : Q)
    (trackId : option string) (w : World) :
  validRefs w = true ->
  match trackId with
  | Some id => _trackById w !! id = None /\ inherited id = false
  | None => True
  end ->
  exists w',
    createTrack el trackHeight trackId w
    = (Return (length (trackStore w)), w') /\
    _tracks w' = _tracks w ++ [length (trackStore w)] /\
    trackStore w' = trackStore w ++ [builtTrack el trackHeight w] /\
    _trackById w' =
      match trackId with
      | Some id => <[id := length (trackStore w)]> (_trackById w)
      | None => _trackById w
      end /\
    (forall id, trackId = Some id ->
       getTrackById id w' = (Return (Some (length (trackStore w))), w')) /\
    (forall id, trackId <> Some id ->
       fst (getTrackById id w') = fst (getTrackById id w)) /\
    calls w' = calls w ++ [NewTrack el trackHeight (length (trackStore w));
                           TrackConfigure (length (trackStore w))
                                          (timeContext w);
                           NewInteraction (_surfaceCtor w) el;
                           TrackRender (length (trackStore w));
                           TrackUpdate (length (trackStore w))] /\
    _groupedLayers w' = _groupedLayers w /\
    layerStore w' = layerStore w /\
    validRefs w' = true /\
    (forall id el2 trackHeight2, trackId = Some id ->
       fst (createTrack el2 trackHeight2 (Some id) w')
       = Throw (TrackIdAlreadyUsed id)).
Proof.
  intros Hv Hfresh.
  assert (Hnew : ~ In (length (trackStore w)) (_tracks w)).
  { intros Hin. destruct (validTracks_bound w _ _ Hv Hin) as [o Ho].
    apply lookup_lt_Some in Ho. lia. }
  assert (Hlast : forall o : Track.t,
            (trackStore w ++ [o]) !! length (trackStore w) = Some o).
  { intros o. rewrite lookup_app_r, Nat.sub_diag by lia. reflexivity. }
  assert (Hstore : <[length (trackStore w) :=
                       configured (timeContext w)
                         {| Track.el := el; Track.svg := domSize w;
                            Track.height := trackHeight; Track.layers := [];
                            Track.renderingContext := None |}]>
                     (trackStore w ++
                        [{| Track.el := el; Track.svg := domSize w;
                            Track.height := trackHeight; Track.layers := [];
                            Track.renderingContext := None |}])
                   = trackStore w ++ [builtTrack el trackHeight w]).
  { rewrite insert_app_r_alt, Nat.sub_diag by lia. reflexivity. }
  unfold createTrack, newTrack. run.
  destruct trackId as [id |]; simpl;
    [destruct Hfresh as [Hfresh Hown]; rewrite Hfresh, Hown; simpl |];
    (erewrite add_run; [| exact Hnew | apply Hlast]);
    simpl; rewrite Hstore; eexists; (split; [reflexivity |]); simpl;
    (split; [reflexivity |]); (split; [reflexivity |]);
    (split; [reflexivity |]).
  - split.
    { intros id' [= <-]. unfold getTrackById, gets. simpl.
      rewrite lookup_insert_eq. reflexivity. }
    split.
    { intros id' Hne. rewrite lookup_insert_ne by congruence. reflexivity. }
    split; [rewrite <- !app_assoc; reflexivity |].
    split; [reflexivity |]. split; [reflexivity |].
    split.
    { apply (validRefs_new_track w _ (builtTrack el trackHeight w));
        try reflexivity; exact Hv. }
    intros id' el2 trackHeight2 [= <-].
    run. rewrite lookup_insert_eq. reflexivity.
  - split; [intros id' [=] |].
    split; [reflexivity |].
    split; [rewrite <- !app_assoc; reflexivity |].
    split; [reflexivity |]. split; [reflexivity |].
    split; [| intros id' el2 trackHeight2 [=]].
    apply (validRefs_new_track w _ (builtTrack el trackHeight w));
      try reflexivity; exact Hv.
Qed.

(** An id that is the name of a property of [Object.prototype] is refused
    as already used, on a new timeline too; the track has been built. *)
Lemma createTrack_inherited_id :
  fst (createTrack 1 100 (Some "constructor") (newTimeline 100 1000 true))
  = Throw (TrackIdAlreadyUsed "constructor") /\
  _tracks (exec (createTrack 1 100 (Some "constructor"))
                (newTimeline 100 1000 true)) = [] /\
  length (trackStore (exec (createTrack 1 100 (Some "constructor"))
                           (newTimeline 100 1000 true))) = 1.
Proof. vm_compute. repeat split. Qed.

Lemma add_once_witness :
  exists w',
    add 0 looseTrack = (Return tt, w') /\
    _tracks w' = [0] /\
    add 0 w' = (Throw TrackAlreadyAdded, w').
Proof.
  destruct (add_once 0 (builtLoose 1 100) looseTrack)
    as (w' & Hadd & Htracks & _ & Hagain & _).
  - intros [].
  - reflexivity.
  - exists w'. repeat split; assumption.
Defined.

Lemma configureSurface_then_add_witness :
  exists w',
    (configureSurface "TouchSurface" ;; add 0) looseTrack = (Return tt, w') /\
    calls w' = calls looseTrack ++ [TrackConfigure 0 0;
                                    NewInteraction "TouchSurface" 1].
Proof.
  destruct (configureSurface_then_add "TouchSurface" 0 (builtLoose 1 100)
              looseTrack)
    as (w' & Hrun & _ & Hcalls).
  - intros [].
  - reflexivity.
  - exists w'. split; assumption.
Defined.

Lemma createTrack_fresh_witness :
  exists w',
    createTrack 1 100 (Some "main") (newTimeline 100 1000 true)
    = (Return 0, w') /\
    getTrackById "main" w' = (Return (Some 0), w') /\
    fst (createTrack 2 100 (Some "main") w') = Throw (TrackIdAlreadyUsed "main").
Proof.
  destruct (createTrack_fresh 1 100 (Some "main") (newTimeline 100 1000 true)
              eq_refl (conj eq_refl eq_refl))
    as (w' & Hrun & _ & _ & _ & Hget & _ & _ & _ & _ & _ & Hagain).
  exists w'. split; [exact Hrun |].
  split; [exact (Hget "main" eq_refl) | exact (Hagain "main" 2 100%Q eq_refl)].
Defined.

(** *** Layers: [addLayer], [removeLayer], [getLayersByGroup] *)

Lemma validLayers_mono (s1 s2 : list Layer.t) (ls : list LayerRef) :
  (forall l, is_Some (s1 !! l) -> is_Some (s2 !! l)) ->
  validLayers s1 ls = true -> validLayers s2 ls = true.
Proof.
  intros Hmono. unfold validLayers. rewrite !forallb_forall.
  intros Hv l Hin. apply bool_decide_eq_true, Hmono.
  eapply bool_decide_eq_true, Hv, Hin.
Qed.

(** Validity carries over to a world where each track of the list still
    exists and holds layers that exist. *)
Lemma validTracks_mono (w1 w2 : World) (tracks : list TrackRef) :
  (forall t o1, In t tracks -> trackStore w1 !! t = Some o1 ->
     validLayers (layerStore w1) (Track.layers o1) = true ->
     exists o2, trackStore w2 !! t = Some o2 /\
                validLayers (layerStore w2) (Track.layers o2) = true) ->
  validTracks w1 tracks = true -> validTracks w2 tracks = true.
Proof.
  intros Hstep.
  induction tracks as [| t ts IH]; simpl; intros Hv; [reflexivity |].
  apply andb_true_iff in Hv as [Ht Hts].
  rewrite IH; [| intros t' o1 Hin; apply Hstep; right; exact Hin | exact Hts].
  rewrite andb_true_r.
  destruct (trackStore w1 !! t) as [o1 |] eqn:Ho1; [| discriminate].
  destruct (Hstep t o1 (or_introl eq_refl) Ho1 Ht) as (o2 & -> & Hv2).
  exact Hv2.
Qed.

(** [addLayer] with a layer that exists, a track that exists and a group
    id that is not the name of a property of [Object.prototype]. *)
Lemma addLayer_run (layer : LayerRef) (trackOrTrackId : TrackRef + string)
    (groupId : string) (isAxis : bool) (w : World)
    (l : Layer.t) (t : TrackRef) (o : Track.t) :
  layerStore w !! layer = Some l ->
  resolveTrack trackOrTrackId w = Some t ->
  trackStore w !! t = Some o ->
  inherited groupId = false ->
  exists w',
    addLayer layer trackOrTrackId groupId isAxis w = (Return tt, w') /\
    _groupedLayers w' =
      <[groupId := default [] (_groupedLayers w !! groupId) ++ [layer]]>
        (_groupedLayers w) /\
    trackStore w' =
      <[t := setTrackLayers (Track.layers o ++ [layer]) o]> (trackStore w) /\
    (forall l', is_Some (layerStore w !! l') ->
                is_Some (layerStore w' !! l')) /\
    (forall l', l' <> layer -> layerStore w' !! l' = layerStore w !! l') /\
    _tracks w' = _tracks w /\
    _trackById w' = _trackById w /\
    _state w' = _state w /\
    calls w' = calls w ++ bindingCalls layer l isAxis w
               ++ [TrackAdd t layer; LayerRender layer; LayerUpdate layer].
Proof.
  intros Hl Ht Ho Hown.
  unfold addLayer, getTrackById, layerSetTimeContext, trackAdd,
    setLayer, setTrack, newLayerTimeContext, bindingCalls.
  unfold resolveTrack in Ht.
  destruct trackOrTrackId as [t0 | id]; [injection Ht as -> |]; run;
    rewrite ?Ht, Hl;
    (destruct (Layer.timeContext l) as [c |]; [| destruct isAxis]); simpl;
    rewrite ?Hl; simpl; rewrite Ho; simpl; rewrite ?Hown;
    destruct (_groupedLayers w !! groupId) as [group |]; simpl;
    eexists; (split; [reflexivity |]); simpl;
    (split; [reflexivity |]); (split; [reflexivity |]);
    (split; [intros l'; rewrite ?list_lookup_insert_is_Some; auto |]);
    (split; [intros l' Hne; rewrite ?list_lookup_insert_ne by congruence;
             reflexivity |]);
    (split; [reflexivity |]); (split; [reflexivity |]);
    (split; [reflexivity |]);
    rewrite <- ?app_assoc; reflexivity.
Qed.

(** The references stay valid when a layer that exists is appended to
    the layers of a track. *)
Lemma addLayer_keeps_valid (layer : LayerRef) (w w' : World) (l : Layer.t)
    (t : TrackRef) (o : Track.t) :
  layerStore w !! layer = Some l ->
  trackStore w !! t = Some o ->
  trackStore w' =
    <[t := setTrackLayers (Track.layers o ++ [layer]) o]> (trackStore w) ->
  (forall l', is_Some (layerStore w !! l') -> is_Some (layerStore w' !! l')) ->
  _tracks w' = _tracks w ->
  validRefs w = true -> validRefs w' = true.
Proof.
  intros Hl Ho Hstore Hsome Htracks Hv.
  assert (Hlt : t < length (trackStore w)) by (eapply lookup_lt_Some, Ho).
  unfold validRefs. rewrite Htracks.
  apply (validTracks_mono w); [| exact Hv].
  intros t' o1 Hin Ho1 Hv1. rewrite Hstore.
  destruct (decide (t' = t)) as [-> | Hne].
  - rewrite list_lookup_insert_eq by exact Hlt. eexists. split; [reflexivity |].
    simpl. rewrite validLayers_app. apply andb_true_iff.
    assert (o1 = o) as -> by congruence.
    split; [exact (validLayers_mono _ _ _ Hsome Hv1) |].
    simpl. rewrite andb_true_r. apply bool_decide_eq_true, Hsome.
    rewrite Hl. eexists; reflexivity.
  - rewrite list_lookup_insert_ne by congruence.
    exists o1. split; [exact Ho1 |]. exact (validLayers_mono _ _ _ Hsome Hv1).
Qed.

(** X7: [addLayer] with a layer and a track that exist, and a group id
    that is not the name of a property of [Object.prototype], returns
    normally; the
    layer is then the last one of its group, as [getLayersByGroup] shows
    it, and the last one of the track; the other groups, the other
    tracks, the other layers, the collection and the id map are as
    before; the references stay valid. *)
Theorem addLayer_appends (layer : LayerRef)
    (trackOrTrackId : TrackRef + string) (groupId : string) (isAxis : bool)
    (w : World) (l : Layer.t) (t : TrackRef) (o : Track.t) :
  layerStore w !! layer = Some l ->
  resolveTrack trackOrTrackId w = Some t ->
  trackStore w !! t = Some o ->
  inherited groupId = false ->
  exists w',
    addLayer layer trackOrTrackId groupId isAxis w = (Return tt, w') /\
    getLayersByGroup groupId w' =
      (Return (Some (default [] (_groupedLayers w !! groupId) ++ [layer])),
       w') /\
    (forall g, g <> groupId ->
       fst (getLayersByGroup g w') = fst (getLayersByGroup g w)) /\
    Track.layers <$> trackStore w' !! t = Some (Track.layers o ++ [layer]) /\
    (forall t', t' <> t -> trackStore w' !! t' = trackStore w !! t') /\
    (forall l', l' <> layer -> layerStore w' !! l' = layerStore w !! l') /\
    _tracks w' = _tracks w /\
    _trackById w' = _trackById w /\
    calls w' = calls w ++ bindingCalls layer l isAxis w
               ++ [TrackAdd t layer; LayerRender layer; LayerUpdate layer] /\
    (validRefs w = true -> validRefs w' = true).
Proof.
  intros Hl Ht Ho Hown.
  destruct (addLayer_run layer trackOrTrackId groupId isAxis w l t o
              Hl Ht Ho Hown)
    as (w' & Hrun & Hgroups & Hstore & Hsome & Hother & Htracks
        & Hbyid & _ & Hcalls).
  assert (Hlt : t < length (trackStore w)) by (eapply lookup_lt_Some, Ho).
  exists w'. split; [exact Hrun |].
  split; [unfold getLayersByGroup, gets; rewrite Hgroups, lookup_insert_eq;
          reflexivity |].
  split; [intros g Hne; unfold getLayersByGroup, gets; simpl;
          rewrite Hgroups, lookup_insert_ne by congruence; reflexivity |].
  split; [rewrite Hstore, list_lookup_insert_eq by exact Hlt; reflexivity |].
  split; [intros t' Hne; rewrite Hstore, list_lookup_insert_ne by congruence;
          reflexivity |].
  split; [exact Hother |]. split; [exact Htracks |]. split; [exact Hbyid |].
  split; [exact Hcalls |].
  intros Hv.
  exact (addLayer_keeps_valid layer w w' l t o Hl Ho Hstore Hsome Htracks Hv).
Qed.

Lemma addLayer_appends_witness :
  exists w',
    addLayer 1 (inr "main") "axes" true oneTrack = (Return tt, w') /\
    getLayersByGroup "axes" w' = (Return (Some [1]), w') /\
    validRefs w' = true.
Proof.
  destruct (addLayer_appends 1 (inr "main") "axes" true oneTrack
              (freshLayer false) 0 (builtTrack 1 100 (newTimeline 100 1000 true))
              eq_refl eq_refl eq_refl eq_refl)
    as (w' & Hrun & Hget & _ & _ & _ & _ & _ & _ & _ & Hv).
  exists w'. split; [exact Hrun |]. split; [exact Hget |].
  apply Hv. reflexivity.
Defined.

(** X8: [addLayer] with a track id that is not registered throws a
    [TypeError].  The collection, the tracks and the groups are as before,
    but a layer that had no time context has been given one already. *)
Theorem addLayer_unknown_track (layer : LayerRef) (trackId groupId : string)
    (isAxis : bool) (w : World) (l : Layer.t) :
  layerStore w !! layer = Some l ->
  _trackById w !! trackId = None ->
  exists w',
    addLayer layer (inr trackId) groupId isAxis w = (Throw TypeError, w') /\
    _groupedLayers w' = _groupedLayers w /\
    trackStore w' = trackStore w /\
    _tracks w' = _tracks w /\
    (is_Some (Layer.timeContext l) -> w' = w) /\
    (Layer.timeContext l = None ->
     exists c, Layer.timeContext <$> layerStore w' !! layer = Some (Some c)).
Proof.
  intros Hl Hid.
  assert (Hlt : layer < length (layerStore w))
    by (eapply lookup_lt_Some; eauto).
  unfold addLayer, getTrackById, layerSetTimeContext, trackAdd,
    setLayer, setTrack, newLayerTimeContext.
  run. rewrite Hid, Hl.
  (destruct (Layer.timeContext l) as [c |]; [| destruct isAxis]); simpl;
    rewrite ?Hl; simpl; eexists; (split; [reflexivity |]); simpl;
    repeat split; try reflexivity;
    try (intros [c' Hc']; discriminate Hc');
    try discriminate;
    intros _; rewrite list_lookup_insert_eq by exact Hlt; eexists; reflexivity.
Qed.

Lemma addLayer_unknown_track_witness :
  exists w',
    addLayer 0 (inr "missing") "default" false oneTrack
    = (Throw TypeError, w') /\
    _groupedLayers w' = _groupedLayers oneTrack /\
    exists c, Layer.timeContext <$> layerStore w' !! 0 = Some (Some c).
Proof.
  destruct (addLayer_unknown_track 0 "missing" "default" false oneTrack
              (freshLayer true) eq_refl eq_refl)
    as (w' & Hrun & Hgroups & _ & _ & _ & Hbound).
  exists w'. split; [exact Hrun |]. split; [exact Hgroups |].
  apply Hbound. reflexivity.
Defined.

Lemma removeFirst_absent (layer : LayerRef) (ls : list LayerRef) :
  ~ In layer ls -> removeFirst layer ls = ls.
Proof.
  induction ls as [| a ls IH]; simpl; intros Hnot; [reflexivity |].
  rewrite bool_decide_eq_false_2 by (intros ->; apply Hnot; left; reflexivity).
  rewrite IH; [reflexivity |]. intros Hin. apply Hnot. right. exact Hin.
Qed.

Lemma removeFirst_incl (layer l' : LayerRef) (ls : list LayerRef) :
  In l' (removeFirst layer ls) -> In l' ls.
Proof.
  induction ls as [| a ls IH]; simpl; [auto |].
  destruct (bool_decide (a = layer)); [intros Hin; right; exact Hin |].
  intros [-> | Hin]; [left; reflexivity | right; apply IH, Hin].
Qed.

Lemma removeFirst_other (layer l' : LayerRef) (ls : list LayerRef) :
  l' <> layer -> In l' ls -> In l' (removeFirst layer ls).
Proof.
  intros Hne. induction ls as [| a ls IH]; simpl; [auto |].
  destruct (bool_decide (a = layer)) eqn:Ha.
  - apply bool_decide_eq_true in Ha as ->.
    intros [-> | Hin]; [contradiction | exact Hin].
  - intros [-> | Hin]; [left; reflexivity | right; apply IH, Hin].
Qed.

Lemma removeFirst_once (layer : LayerRef) (ls : list LayerRef) :
  NoDup ls -> ~ In layer (removeFirst layer ls).
Proof.
  induction 1 as [| a ls Ha Hnd IH]; simpl; [auto |].
  destruct (bool_decide (a = layer)) eqn:E.
  - apply bool_decide_eq_true in E as ->.
    intros Hin. apply Ha, list_elem_of_In, Hin.
  - apply bool_decide_eq_false in E.
    intros [-> | Hin]; [apply E; reflexivity | exact (IH Hin)].
Qed.

Lemma setTrackLayers_same (o : Track.t) : setTrackLayers (Track.layers o) o = o.
Proof. destruct o; reflexivity. Qed.

(** The first loop of [removeLayer], over tracks that exist and are
    pairwise distinct: it asks the tracks that hold the layer, and no
    other, to remove it. *)
Lemma removeLayer_forEach (layer : LayerRef) (tracks : list TrackRef) :
  forall w : World,
  NoDup tracks ->
  (forall t, In t tracks -> is_Some (trackStore w !! t)) ->
  exists w',
    forEach (fun track =>
      ls ← deref trackStore track Track.layers;
      if bool_decide (layer ∈ ls) then trackRemove track layer
      else mret tt) tracks w = (Return tt, w') /\
    calls w' = calls w ++ List.map (fun t => TrackRemove t layer)
                            (holders layer (trackStore w) tracks) /\
    (forall t o, In t tracks -> trackStore w !! t = Some o ->
       trackStore w' !! t
       = Some (setTrackLayers (removeFirst layer (Track.layers o)) o)) /\
    (forall t, ~ In t tracks -> trackStore w' !! t = trackStore w !! t) /\
    layerStore w' = layerStore w /\
    _tracks w' = _tracks w /\
    _groupedLayers w' = _groupedLayers w.
Proof.
  induction tracks as [| t ts IH]; intros w Hnd Hex.
  - exists w. simpl. rewrite app_nil_r. repeat split; try reflexivity.
    intros t o [].
  - apply NoDup_cons in Hnd as [Ht Hnd].
    assert (Hnot : ~ In t ts) by (intros Hin; apply Ht, list_elem_of_In, Hin).
    destruct (Hex t (or_introl eq_refl)) as [o Ho].
    assert (Hlt : t < length (trackStore w)) by (eapply lookup_lt_Some, Ho).
    simpl. unfold trackRemove, setTrack, holders. run. rewrite Ho. simpl.
    destruct (bool_decide (layer ∈ Track.layers o)) eqn:Hholds; run.
    + rewrite Ho. simpl.
      set (w1 := with_calls (calls w ++ [TrackRemove t layer])
                   (with_trackStore
                      (<[t := setTrackLayers
                                (removeFirst layer (Track.layers o)) o]>
                         (trackStore w)) w)).
      destruct (IH w1 Hnd) as (w' & Hrun & Hcalls & Hin & Hout & Hls & Htr & Hg).
      { intros t' Hin'. simpl. apply list_lookup_insert_is_Some, Hex.
        right. exact Hin'. }
      exists w'. split; [exact Hrun |].
      assert (Hsame : holders layer (trackStore w1) ts
                      = holders layer (trackStore w) ts).
      { unfold holders. apply filter_ext_in. intros t' Hin'. simpl.
        rewrite list_lookup_insert_ne by (intros ->; contradiction).
        reflexivity. }
      split.
      { rewrite Hcalls, Hsame. simpl. rewrite <- app_assoc. reflexivity. }
      split.
      { intros t' o' [<- | Hin'] Ho'.
        - rewrite (Hout t Hnot). simpl.
          rewrite list_lookup_insert_eq by exact Hlt. congruence.
        - apply Hin; [exact Hin' |]. simpl.
          rewrite list_lookup_insert_ne by (intros ->; contradiction).
          exact Ho'. }
      split.
      { intros t' Hnot'. rewrite Hout by (intros Hin'; apply Hnot'; right;
                                          exact Hin').
        simpl. apply list_lookup_insert_ne. intros ->. apply Hnot'. left.
        reflexivity. }
      split; [exact Hls |]. split; [exact Htr | exact Hg].
    + destruct (IH w Hnd) as (w' & Hrun & Hcalls & Hin & Hout & Hrest).
      { intros t' Hin'. apply Hex. right. exact Hin'. }
      exists w'. split; [exact Hrun |]. split; [exact Hcalls |].
      split; [| split; [| exact Hrest]].
      * intros t' o' [<- | Hin'] Ho'; [| exact (Hin t' o' Hin' Ho')].
        rewrite (Hout t Hnot), Ho'. f_equal.
        assert (o' = o) as -> by congruence.
        rewrite removeFirst_absent, setTrackLayers_same; [reflexivity |].
        apply bool_decide_eq_false in Hholds.
        intros Hl. apply Hholds, list_elem_of_In, Hl.
      * intros t' Hnot'. apply Hout. intros Hin'. apply Hnot'. right.
        exact Hin'.
Qed.

Lemma removeLayer_run (layer : LayerRef) (w : World) :
  validRefs w = true ->
  NoDup (_tracks w) ->
  exists w',
    removeLayer layer w = (Return tt, w') /\
    calls w' = calls w ++ List.map (fun t => TrackRemove t layer)
                            (holders layer (trackStore w) (_tracks w)) /\
    (forall t o, In t (_tracks w) -> trackStore w !! t = Some o ->
       trackStore w' !! t
       = Some (setTrackLayers (removeFirst layer (Track.layers o)) o)) /\
    layerStore w' = layerStore w /\
    _tracks w' = _tracks w /\
    _groupedLayers w' = omap (cleanGroup layer) (_groupedLayers w).
Proof.
  intros Hv Hnd.
  destruct (removeLayer_forEach layer (_tracks w) w Hnd)
    as (w1 & Hrun & Hcalls & Hin & _ & Hls & Htr & Hg).
  { intros t Ht. exact (validTracks_bound w _ _ Hv Ht). }
  unfold removeLayer. run.
  match goal with
  | |- context [forEach ?f ?l w] =>
      assert (Hf : forEach f l w = (Return tt, w1)) by exact Hrun;
      rewrite Hf
  end.
  eexists. split; [reflexivity |]. simpl.
  split; [exact Hcalls |]. split; [exact Hin |].
  split; [exact Hls |]. split; [exact Htr |]. rewrite Hg. reflexivity.
Qed.

(** X9: [removeLayer], with valid references and a collection without
    repetition, returns normally.  It asks exactly the tracks that hold
    the layer to remove it, in the order of the collection; each track of
    the collection then holds its former layers without the first
    occurrence of the layer, so a track that held the layer once holds it
    no more and holds the others as before; the references stay valid. *)
Theorem removeLayer_detaches_from_tracks (layer : LayerRef) (w : World) :
  validRefs w = true ->
  NoDup (_tracks w) ->
  exists w',
    removeLayer layer w = (Return tt, w') /\
    calls w' = calls w ++ List.map (fun t => TrackRemove t layer)
                            (holders layer (trackStore w) (_tracks w)) /\
    (forall t o, In t (_tracks w) -> trackStore w !! t = Some o ->
       Track.layers <$> trackStore w' !! t
       = Some (removeFirst layer (Track.layers o))) /\
    (forall t o o', In t (_tracks w) -> trackStore w !! t = Some o ->
       NoDup (Track.layers o) -> trackStore w' !! t = Some o' ->
       ~ In layer (Track.layers o') /\
       (forall l', l' <> layer ->
          (In l' (Track.layers o') <-> In l' (Track.layers o)))) /\
    _tracks w' = _tracks w /\
    layerStore w' = layerStore w /\
    validRefs w' = true.
Proof.
  intros Hv Hnd.
  destruct (removeLayer_run layer w Hv Hnd)
    as (w' & Hrun & Hcalls & Hin & Hls & Htr & _).
  exists w'. split; [exact Hrun |]. split; [exact Hcalls |].
  split; [intros t o Ht Ho; rewrite (Hin t o Ht Ho); reflexivity |].
  split.
  { intros t o o' Ht Ho Hnodup Ho'. rewrite (Hin t o Ht Ho) in Ho'.
    injection Ho' as <-. simpl. split; [apply removeFirst_once, Hnodup |].
    intros l' Hne. split; [apply removeFirst_incl |].
    apply removeFirst_other, Hne. }
  split; [exact Htr |]. split; [exact Hls |].
  unfold validRefs. rewrite Htr. apply (validTracks_mono w); [| exact Hv].
  intros t o1 Ht Ho1 Hv1. rewrite (Hin t o1 Ht Ho1). eexists.
  split; [reflexivity |]. simpl. rewrite Hls.
  unfold validLayers in *. rewrite forallb_forall in *.
  intros l' Hl'. apply Hv1. eapply removeFirst_incl, Hl'.
Qed.

Lemma removeLayer_detaches_from_tracks_witness :
  exists w',
    removeLayer 1 twoLayers = (Return tt, w') /\
    calls w' = calls twoLayers ++ [TrackRemove 0 1] /\
    Track.layers <$> trackStore w' !! 0 = Some [0].
Proof.
  destruct (removeLayer_detaches_from_tracks 1 twoLayers eq_refl)
    as (w' & Hrun & Hcalls & Hlayers & _).
  - repeat constructor. intros Hin. inversion Hin.
  - exists w'. split; [exact Hrun |]. split; [exact Hcalls |].
    exact (Hlayers 0 _ (or_introl eq_refl) eq_refl).
Defined.

(** X10: What [removeLayer] does to the groups, with valid references and a
    collection without repetition: a group whose first layer is the one
    removed loses it, and is deleted when it held nothing else; a group
    that does not hold the layer and is not empty is as before; no group
    is created. *)
Theorem removeLayer_group_of_first_layer (layer : LayerRef) (w : World) :
  validRefs w = true ->
  NoDup (_tracks w) ->
  exists w',
    removeLayer layer w = (Return tt, w') /\
    (forall groupId rest,
       _groupedLayers w !! groupId = Some (layer :: rest) ->
       _groupedLayers w' !! groupId
       = match rest with [] => None | _ => Some rest end) /\
    (forall groupId group,
       _groupedLayers w !! groupId = Some group ->
       ~ In layer group -> group <> [] ->
       _groupedLayers w' !! groupId = Some group) /\
    (forall groupId,
       _groupedLayers w !! groupId = None ->
       _groupedLayers w' !! groupId = None).
Proof.
  intros Hv Hnd.
  destruct (removeLayer_run layer w Hv Hnd)
    as (w' & Hrun & _ & _ & _ & _ & Hgroups).
  exists w'. split; [exact Hrun |]. rewrite Hgroups.
  split; [| split].
  - intros groupId rest Hg. rewrite lookup_omap, Hg. simpl.
    rewrite cleanGroup_drops_head by (left; reflexivity).
    simpl. rewrite drop_0. destruct rest; reflexivity.
  - intros groupId group Hg Hnot Hne. rewrite lookup_omap, Hg. simpl.
    unfold cleanGroup.
    rewrite bool_decide_eq_false_2
      by (intros Hin; apply Hnot, list_elem_of_In, Hin).
    destruct group; [contradiction | reflexivity].
  - intros groupId Hg. rewrite lookup_omap, Hg. reflexivity.
Qed.

Lemma removeLayer_group_of_first_layer_witness :
  exists w',
    removeLayer 0 twoLayers = (Return tt, w') /\
    _groupedLayers w' !! "default" = Some [1].
Proof.
  destruct (removeLayer_group_of_first_layer 0 twoLayers eq_refl)
    as (w' & Hrun & Hfirst & _).
  - repeat constructor. intros Hin. inversion Hin.
  - exists w'. split; [exact Hrun |].
    exact (Hfirst "default" [1] eq_refl).
Defined.

Lemma removeFirst_app_last (layer : LayerRef) (ls : list LayerRef) :
  ~ In layer ls -> removeFirst layer (ls ++ [layer]) = ls.
Proof.
  induction ls as [| a ls IH]; simpl; intros Hnot.
  - rewrite bool_decide_eq_true_2 by reflexivity. reflexivity.
  - rewrite bool_decide_eq_false_2
      by (intros ->; apply Hnot; left; reflexivity).
    rewrite IH; [reflexivity |]. intros Hin. apply Hnot. right. exact Hin.
Qed.

Lemma cleanGroup_single (layer : LayerRef) : cleanGroup layer [layer] = None.
Proof. rewrite cleanGroup_drops_head by (left; reflexivity). reflexivity. Qed.

(** X11: Round trip: a layer added to a track of the collection in a group
    that did not exist, under an id that is not the name of a property of
    [Object.prototype], and then removed, leaves the groups and the layers
    of the track as they were, provided no group held the layer or was
    empty to begin with. *)
Theorem addLayer_then_removeLayer (layer : LayerRef)
    (trackOrTrackId : TrackRef + string) (groupId : string) (isAxis : bool)
    (w : World) (l : Layer.t) (t : TrackRef) (o : Track.t) :
  validRefs w = true ->
  NoDup (_tracks w) ->
  layerStore w !! layer = Some l ->
  resolveTrack trackOrTrackId w = Some t ->
  trackStore w !! t = Some o ->
  In t (_tracks w) ->
  ~ In layer (Track.layers o) ->
  _groupedLayers w !! groupId = None ->
  inherited groupId = false ->
  (forall g ls, _groupedLayers w !! g = Some ls -> ~ In layer ls /\ ls <> []) ->
  exists w1 w2,
    addLayer layer trackOrTrackId groupId isAxis w = (Return tt, w1) /\
    _groupedLayers w1 !! groupId = Some [layer] /\
    removeLayer layer w1 = (Return tt, w2) /\
    _groupedLayers w2 = _groupedLayers w /\
    Track.layers <$> trackStore w2 !! t = Some (Track.layers o) /\
    _tracks w2 = _tracks w.
Proof.
  intros Hv Hnd Hl Ht Ho Hin Hnot Hnew Hown Hclean.
  destruct (addLayer_run layer trackOrTrackId groupId isAxis w l t o
              Hl Ht Ho Hown)
    as (w1 & Hadd & Hgroups1 & Hstore1 & Hsome & _ & Htracks1 & _).
  assert (Hv1 : validRefs w1 = true)
    by exact (addLayer_keeps_valid layer w w1 l t o Hl Ho Hstore1 Hsome
                Htracks1 Hv).
  assert (Hnd1 : NoDup (_tracks w1)) by (rewrite Htracks1; exact Hnd).
  destruct (removeLayer_run layer w1 Hv1 Hnd1)
    as (w2 & Hremove & _ & Hin2 & _ & Htracks2 & Hgroups2).
  assert (Hlt : t < length (trackStore w)) by (eapply lookup_lt_Some, Ho).
  assert (Hsame : omap (cleanGroup layer) (_groupedLayers w)
                  = _groupedLayers w).
  { apply map_eq. intros g. rewrite lookup_omap.
    destruct (_groupedLayers w !! g) as [ls |] eqn:Hg; [| reflexivity].
    destruct (Hclean g ls Hg) as [Hno Hne]. simpl. unfold cleanGroup.
    rewrite bool_decide_eq_false_2
      by (intros Hls; apply Hno, list_elem_of_In, Hls).
    destruct ls; [contradiction | reflexivity]. }
  exists w1, w2. split; [exact Hadd |].
  split; [rewrite Hgroups1, Hnew, lookup_insert_eq; reflexivity |].
  split; [exact Hremove |]. split; [| split].
  - rewrite Hgroups2, Hgroups1, Hnew. simpl.
    rewrite omap_insert_None by exact (cleanGroup_single layer).
    rewrite Hsame. apply delete_id, Hnew.
  - rewrite (Hin2 t (setTrackLayers (Track.layers o ++ [layer]) o)).
    + simpl. rewrite removeFirst_app_last by exact Hnot. reflexivity.
    + rewrite Htracks1. exact Hin.
    + rewrite Hstore1. apply list_lookup_insert_eq, Hlt.
  - rewrite Htracks2. exact Htracks1.
Qed.

Lemma addLayer_then_removeLayer_witness :
  exists w1 w2,
    addLayer 0 (inr "main") "default" false oneTrack = (Return tt, w1) /\
    _groupedLayers w1 !! "default" = Some [0] /\
    removeLayer 0 w1 = (Return tt, w2) /\
    _groupedLayers w2 = _groupedLayers oneTrack /\
    Track.layers <$> trackStore w2 !! 0 = Some [].
Proof.
  destruct (addLayer_then_removeLayer 0 (inr "main") "default" false oneTrack
              (freshLayer true) 0
              (builtTrack 1 100 (newTimeline 100 1000 true)))
    as (w1 & w2 & Hadd & Hgroup & Hremove & Hgroups & Hlayers & _).
  - reflexivity.
  - repeat constructor. intros Hin. inversion Hin.
  - reflexivity.
  - reflexivity.
  - reflexivity.
  - left. reflexivity.
  - intros [].
  - reflexivity.
  - reflexivity.
  - intros g ls Hg. vm_compute in Hg. discriminate Hg.
  - exists w1, w2. repeat split; assumption.
Defined.

(** *** [getTrackFromDOMElement] with a marked ancestor *)

Lemma trackOfSvg_sound (store : list Track.t) (svg : NodeRef)
    (tracks : list TrackRef) :
  forall (found : option TrackRef) (t : TrackRef),
  trackOfSvg store svg tracks found = Some t ->
  found = Some t \/
  (In t tracks /\ Track.svg <$> store !! t = Some svg).
Proof.
  induction tracks as [| t0 ts IH]; simpl; intros found t Hres; [auto |].
  apply IH in Hres as [Hfound | [Hin Hsvg]]; [| right; auto].
  destruct (store !! t0) as [o |] eqn:Ho; [| left; exact Hfound].
  destruct (bool_decide (Track.svg o = svg)) eqn:Hsvg; [| left; exact Hfound].
  apply bool_decide_eq_true in Hsvg. injection Hfound as <-.
  right. split; [left; reflexivity |]. rewrite Ho. simpl. congruence.
Qed.

Lemma trackOfSvg_complete (store : list Track.t) (svg : NodeRef)
    (tracks : list TrackRef) :
  forall found : option TrackRef,
  trackOfSvg store svg tracks found = None ->
  found = None /\
  forall t, In t tracks -> Track.svg <$> store !! t <> Some svg.
Proof.
  induction tracks as [| t0 ts IH]; simpl; intros found Hres;
    [split; [exact Hres | intros t []] |].
  apply IH in Hres as [Hfound Hrest].
  destruct (store !! t0) as [o |] eqn:Ho.
  - destruct (bool_decide (Track.svg o = svg)) eqn:Hsvg; [discriminate |].
    apply bool_decide_eq_false in Hsvg.
    split; [exact Hfound |].
    intros t [<- | Hin]; [| exact (Hrest t Hin)].
    rewrite Ho. simpl. congruence.
  - split; [exact Hfound |].
    intros t [<- | Hin]; [| exact (Hrest t Hin)].
    rewrite Ho. discriminate.
Qed.

(** X12: When the element or one of its ancestors carries the class [track],
    [getTrackFromDOMElement] returns normally and leaves the world as it
    is.  The element it stops at is the element itself when it carries the
    class.  A track returned is in the collection and has that element as
    its [$svg]; [null] is returned only when no track of the collection
    has. *)
Theorem getTrackFromDOMElement_finds (el : DOMNode) (w : World) :
  hasTrackAncestor el = true ->
  validRefs w = true ->
  exists svg result,
    closestTrackElement el = Return svg /\
    getTrackFromDOMElement el w = (Return result, w) /\
    (forall id classList parentNode,
       el = Element id classList parentNode -> In "track" classList ->
       svg = id) /\
    (forall t, result = Some t ->
       In t (_tracks w) /\ Track.svg <$> trackStore w !! t = Some svg) /\
    (result = None ->
     forall t, In t (_tracks w) ->
       Track.svg <$> trackStore w !! t <> Some svg).
Proof.
  intros Hm Hv.
  destruct (getTrackFromDOMElement_marked el w Hm Hv) as (svg & Hsvg & Hrun).
  exists svg, (trackOfSvg (trackStore w) svg (_tracks w) None).
  split; [exact Hsvg |]. split; [exact Hrun |]. split; [| split].
  - intros id classList parentNode -> Hin. simpl in Hsvg.
    rewrite bool_decide_eq_true_2 in Hsvg by (apply list_elem_of_In, Hin).
    congruence.
  - intros t Hres. apply trackOfSvg_sound in Hres as [Hnone | Hfound];
      [discriminate | exact Hfound].
  - intros Hres. apply trackOfSvg_complete in Hres as [_ Hrest]. exact Hrest.
Qed.

Lemma getTrackFromDOMElement_finds_witness :
  exists svg result,
    getTrackFromDOMElement
      (Element 9 ["layer"] (Element 1 ["track"] Document)) twoLayers
    = (Return result, twoLayers) /\
    svg = 1 /\ result = Some 0.
Proof.
  destruct (getTrackFromDOMElement_finds
              (Element 9 ["layer"] (Element 1 ["track"] Document))
              twoLayers eq_refl eq_refl)
    as (svg & result & Hsvg & Hrun & _).
  exists svg, result. split; [exact Hrun |].
  injection Hsvg as <-. split; [reflexivity |].
  vm_compute in Hrun. congruence.
Defined.

(** *** Dispatch and the life cycle of states *)

Lemma lifecycle_app (cs1 cs2 : list Call) :
  forall active : option StateRef,
  lifecycle (cs1 ++ cs2) active =
  match lifecycle cs1 active with
  | Some active' => lifecycle cs2 active'
  | None => None
  end.
Proof.
  induction cs1 as [| c cs1 IH]; intros active; [reflexivity |].
  destruct c; simpl; try apply IH;
    destruct active as [a |]; try reflexivity; try apply IH;
    destruct (bool_decide (a = state)); try reflexivity; apply IH.
Qed.

Lemma lifecycle_hitTestCalls (e : WavesEvent.t) (w : World)
    (active : option StateRef) :
  lifecycle (hitTestCalls e w) active = Some active.
Proof.
  unfold hitTestCalls. destruct (fromSurface e); [| reflexivity].
  induction (List.filter (hittableIn (layerStore w)) (layersOf w));
    simpl; [reflexivity | assumption].
Qed.

(** One use of the timeline keeps the calls to states in turn. *)
Lemma step_lifecycle (s : Step) (w : World) :
  validRefs w = true ->
  exists w' cs,
    step s w = (Return tt, w') /\
    calls w' = calls w ++ cs /\
    lifecycle cs (_state w) = Some (_state w') /\
    validRefs w' = true.
Proof.
  intros Hv. destruct s as [new | e]; simpl.
  - eexists _, _. split; [apply set_state_run |].
    split; [reflexivity |]. split; [| exact Hv]. simpl.
    destruct (_state w) as [a |], new; simpl;
      rewrite ?bool_decide_eq_true_2 by reflexivity; reflexivity.
  - eexists _, _. split; [apply (handleEvent_run e w Hv) |].
    split; [reflexivity |]. split; [| exact Hv]. simpl.
    rewrite lifecycle_app, lifecycle_hitTestCalls. simpl.
    destruct (_state w) as [a |]; simpl;
      rewrite ?bool_decide_eq_true_2 by reflexivity; reflexivity.
Qed.

(** X14: Over any sequence of assignments to [state] and of dispatched events,
    the calls to interaction states come in turn: a state is entered only
    when none is active, and it is the active state alone that receives
    events and is exited; the state active at the end is the value of
    [_state]. *)
Theorem states_called_in_turn (steps : list Step) :
  forall w : World,
  validRefs w = true ->
  exists w' cs,
    forEach step steps w = (Return tt, w') /\
    calls w' = calls w ++ cs /\
    lifecycle cs (_state w) = Some (_state w').
Proof.
  induction steps as [| s steps IH]; intros w Hv.
  - exists w, []. simpl. rewrite app_nil_r. repeat split.
  - destruct (step_lifecycle s w Hv) as (w1 & cs1 & Hrun1 & Hcalls1 & Hlife1 & Hv1).
    destruct (IH w1 Hv1) as (w' & cs & Hrun & Hcalls & Hlife).
    exists w', (cs1 ++ cs). simpl. run. rewrite Hrun1, Hrun.
    split; [reflexivity |].
    split; [rewrite Hcalls, Hcalls1, app_assoc; reflexivity |].
    rewrite lifecycle_app, Hlife1. exact Hlife.
Qed.

Lemma states_called_in_turn_witness :
  exists w' cs,
    forEach step [Assign (Some 7);
                  Dispatch (pointerEvent "mousedown" "surface" 10 10);
                  Assign (Some 8);
                  Dispatch (pointerEvent "keydown" "keyboard" 0 0);
                  Assign None] twoLayers = (Return tt, w') /\
    lifecycle cs (_state twoLayers) = Some (_state w').
Proof.
  destruct (states_called_in_turn
              [Assign (Some 7);
               Dispatch (pointerEvent "mousedown" "surface" 10 10);
               Assign (Some 8);
               Dispatch (pointerEvent "keydown" "keyboard" 0 0);
               Assign None] twoLayers eq_refl)
    as (w' & cs & Hrun & _ & Hlife).
  exists w', cs. split; assumption.
Defined.

(** X15: The setter of the earlier class and the current one agree on every
    state that is not null.  On null the current one returns, while the
    earlier one throws a [TypeError] once it has exited the previous state
    and stored null. *)
Theorem earlier_set_state_null (w : World) :
  (forall s, earlier_set_state (Some s) w = set_state (Some s) w) /\
  earlier_set_state None w =
    (Throw TypeError,
     with_calls (calls w ++ exitCalls (_state w)) (with__state None w)) /\
  set_state None w =
    (Return tt,
     with_calls (calls w ++ exitCalls (_state w)) (with__state None w)).
Proof.
  split; [| split].
  - intros s. unfold earlier_set_state, set_state. run.
    destruct (_state w); reflexivity.
  - unfold earlier_set_state. run.
    destruct (_state w); run; rewrite ?app_nil_r; reflexivity.
  - rewrite set_state_run. simpl. rewrite app_nil_r. reflexivity.
Qed.

End TimelineProofs.

(** ** Line shape *)

Module LineProofs.

Import Line.

Local Open Scope Q_scope.

Lemma Qltb_true (a b : Q) : Timeline.Qltb a b = true <-> a < b.
Proof.
  unfold Timeline.Qltb. rewrite negb_true_iff, <- not_true_iff_false.
  rewrite Qle_bool_iff. split; [apply Qnot_le_lt | apply Qlt_not_le].
Qed.

Lemma Qltb_false (a b : Q) : Timeline.Qltb a b = false <-> b <= a.
Proof.
  unfold Timeline.Qltb. rewrite negb_false_iff. apply Qle_bool_iff.
Qed.

Section Shape.

Context {Datum : Type} (cx cy : Datum -> Q)
        (timeToPixel valueToPixel : Q -> Q).

Local Abbreviation point := (Line.point cx cy timeToPixel valueToPixel).
Local Abbreviation pixel := (Line.pixel cx timeToPixel).
Local Abbreviation update_for :=
  (Line.update_for cx cy timeToPixel valueToPixel).
Local Abbreviation update := (Line.update cx cy timeToPixel valueToPixel).
Local Abbreviation _buildLine :=
  (Line._buildLine cx cy timeToPixel valueToPixel).
Local Abbreviation drawn := (Line.drawn cx timeToPixel).

(** The loop appends the points of the drawn data to the instructions. *)
Lemma update_for_drawn (minX maxX : Z) (data : list Datum) :
  forall (nextX : Q) (instructions : list (Q * Q)),
  match data with
  | first :: _ => nextX = pixel first
  | [] => True
  end ->
  update_for minX maxX nextX data instructions =
  instructions
  ++ List.map point (drawn (inject_Z minX) (inject_Z maxX) data).
Proof.
  induction data as [| datum data' IH]; intros nextX instructions Hnext.
  - simpl. rewrite app_nil_r. reflexivity.
  - subst nextX. cbn [Line.update_for Line.drawn].
    assert (Hnext' : match data' with
                     | first :: _ =>
                         match data' with
                         | next :: _ => timeToPixel (cx next)
                         | [] => pixel datum
                         end = pixel first
                     | [] => True
                     end) by (destruct data'; reflexivity).
    replace (match data' with
             | next :: _ => Line.pixel cx timeToPixel next
             | [] => pixel datum
             end)
      with (match data' with
            | next :: _ => timeToPixel (cx next)
            | [] => pixel datum
            end) by (destruct data'; reflexivity).
    destruct (Timeline.Qltb _ (inject_Z minX)).
    + apply IH, Hnext'.
    + destruct (Timeline.Qltb (inject_Z maxX) (pixel datum)).
      * reflexivity.
      * rewrite IH by exact Hnext'. rewrite <- app_assoc. reflexivity.
Qed.

Lemma update_drawn (rc_minX rc_maxX : Q) (data : list Datum) :
  update rc_minX rc_maxX data =
  MoveLine (List.map point (drawn (inject_Z (Qfloor rc_minX))
                                  (inject_Z (Qfloor rc_maxX)) data)).
Proof.
  unfold Line.update. destruct data as [| first data']; [reflexivity |].
  rewrite update_for_drawn by reflexivity. reflexivity.
Qed.

Lemma drawn_sublist (minX maxX : Q) (data : list Datum) :
  sublist (drawn minX maxX data) data.
Proof.
  induction data as [| datum data' IH]; simpl; [constructor |].
  destruct (Timeline.Qltb _ minX); [apply sublist_cons, IH |].
  destruct (Timeline.Qltb maxX _); apply sublist_skip;
    [apply sublist_nil_l | exact IH].
Qed.

Lemma sublist_map {A B : Type} (f : A -> B) (l1 l2 : list A) :
  sublist l1 l2 -> sublist (List.map f l1) (List.map f l2).
Proof.
  induction 1; simpl; [constructor | apply sublist_skip | apply sublist_cons];
    assumption.
Qed.

Lemma drawn_Forall (P : Datum -> Prop) (minX maxX : Q) (data : list Datum) :
  Forall P data -> Forall P (drawn minX maxX data).
Proof.
  induction 1 as [| datum data' Hd Hrest IH]; simpl; [constructor |].
  destruct (Timeline.Qltb _ minX); [exact IH |].
  destruct (Timeline.Qltb maxX _); repeat constructor; assumption.
Qed.

Lemma removelast_map {A B : Type} (f : A -> B) (l : list A) :
  removelast (List.map f l) = List.map f (removelast l).
Proof.
  induction l as [| a [| b l] IH]; try reflexivity.
  change (f a :: removelast (List.map f (b :: l))
          = f a :: List.map f (removelast (b :: l))).
  rewrite IH. reflexivity.
Qed.

Lemma Forall_map_point (P : Q -> Prop) (l : list Datum) :
  Forall (fun d => P (pixel d)) l ->
  Forall (fun p => P (fst p)) (List.map point l).
Proof. induction 1; simpl; constructor; assumption. Qed.

(** The next position read by the loop is not left of the current one
    when the pixel positions do not decrease along the array. *)
Lemma next_not_before (datum : Datum) (data' : list Datum) :
  Forall (fun d => pixel datum <= pixel d) data' ->
  pixel datum <= match data' with
                 | next :: _ => pixel next
                 | [] => pixel datum
                 end.
Proof.
  destruct data' as [| next rest]; intros H; [apply Qle_refl |].
  inversion H; assumption.
Qed.

Lemma drawn_visible (minX maxX : Q) (data : list Datum) (datum : Datum) :
  StronglySorted (fun a b => pixel a <= pixel b) data ->
  In datum data ->
  minX <= pixel datum -> pixel datum <= maxX ->
  In datum (drawn minX maxX data).
Proof.
  intros Hsorted Hin Hmin Hmax.
  induction Hsorted as [| first data' Hsorted' IH Hfirst]; [destruct Hin |].
  cbn [Line.drawn].
  pose proof (next_not_before first data' Hfirst) as Hnext.
  destruct Hin as [-> | Hin].
  - rewrite (proj2 (Qltb_false _ minX)) by (eapply Qle_trans; eauto).
    destruct (Timeline.Qltb maxX _); left; reflexivity.
  - destruct (Timeline.Qltb _ minX); [apply IH, Hin |].
    destruct (Timeline.Qltb maxX (pixel first)) eqn:Hbreak.
    + exfalso. apply Qltb_true in Hbreak.
      apply (Qlt_irrefl maxX). eapply Qlt_le_trans; [exact Hbreak |].
      eapply Qle_trans; [| exact Hmax].
      rewrite Forall_forall in Hfirst. apply Hfirst, list_elem_of_In, Hin.
    + right. apply IH, Hin.
Qed.

Lemma drawn_right_edge (minX maxX : Q) (data : list Datum) :
  Forall (fun d => pixel d <= maxX) (removelast (drawn minX maxX data)).
Proof.
  induction data as [| datum data' IH]; [constructor |].
  cbn [Line.drawn].
  destruct (Timeline.Qltb _ minX); [exact IH |].
  destruct (Timeline.Qltb maxX (pixel datum)) eqn:Hbreak; [constructor |].
  apply Qltb_false in Hbreak.
  destruct (drawn minX maxX data') as [| d r]; [constructor |].
  change (Forall (fun d => pixel d <= maxX)
            (datum :: removelast (d :: r))).
  constructor; assumption.
Qed.

Lemma drawn_left_edge (minX maxX : Q) (data : list Datum) :
  StronglySorted (fun a b => pixel a <= pixel b) data ->
  Forall (fun d => minX <= pixel d) (tail (drawn minX maxX data)).
Proof.
  induction 1 as [| first data' Hsorted' IH Hfirst]; [constructor |].
  cbn [Line.drawn].
  destruct (Timeline.Qltb _ minX) eqn:Hskip; [exact IH |].
  apply Qltb_false in Hskip.
  destruct (Timeline.Qltb maxX (pixel first)); [constructor |].
  cbn [tail]. apply drawn_Forall.
  destruct Hsorted' as [| next rest _ Hnext]; constructor; [exact Hskip |].
  eapply Forall_impl; [exact Hnext |].
  intros d Hd. simpl in Hd. eapply Qle_trans; eauto.
Qed.

Lemma drawn_all_inside (minX maxX : Q) (data : list Datum) :
  Forall (fun d => minX <= pixel d /\ pixel d <= maxX) data ->
  drawn minX maxX data = data.
Proof.
  induction 1 as [| datum data' [Hmin Hmax] Hrest IH]; [reflexivity |].
  cbn [Line.drawn].
  assert (Hnext : minX <= match data' with
                          | next :: _ => pixel next
                          | [] => pixel datum
                          end)
    by (destruct Hrest as [| next rest [Hn _] _]; assumption).
  rewrite (proj2 (Qltb_false _ minX) Hnext).
  rewrite (proj2 (Qltb_false maxX _) Hmax), IH. reflexivity.
Qed.

Lemma drawn_all_left (minX maxX : Q) (data : list Datum) :
  Forall (fun d => pixel d < minX) data -> drawn minX maxX data = [].
Proof.
  induction 1 as [| datum data' Hleft Hrest IH]; [reflexivity |].
  cbn [Line.drawn].
  assert (Hnext : match data' with
                  | next :: _ => pixel next
                  | [] => pixel datum
                  end < minX)
    by (destruct Hrest; assumption).
  rewrite (proj2 (Qltb_true _ minX) Hnext). exact IH.
Qed.

Lemma drawn_all_right (minX maxX : Q) (first : Datum) (data' : list Datum) :
  minX <= maxX ->
  Forall (fun d => maxX < pixel d) (first :: data') ->
  drawn minX maxX (first :: data') = [first].
Proof.
  intros Hwindow Hright. cbn [Line.drawn].
  inversion Hright as [| ? ? Hfirst Hrest]; subst.
  assert (Hnext : minX <= match data' with
                          | next :: _ => pixel next
                          | [] => pixel first
                          end).
  { apply Qle_trans with maxX; [exact Hwindow |]. apply Qlt_le_weak.
    destruct Hrest; assumption. }
  rewrite (proj2 (Qltb_false _ minX) Hnext).
  rewrite (proj2 (Qltb_true maxX _) Hfirst). reflexivity.
Qed.

(** X16: [update] never draws a point that [_buildLine] would not: its
    instructions are points of the data, in the order of the array, each
    at most once per element. *)
Theorem update_draws_points_of_data (rc_minX rc_maxX : Q)
    (data : list Datum) :
  exists instructions,
    update rc_minX rc_maxX data = MoveLine instructions /\
    sublist instructions (List.map point data) /\
    (length instructions <= length data)%nat.
Proof.
  eexists. split; [apply update_drawn |].
  assert (Hsub : sublist
                   (List.map point
                      (drawn (inject_Z (Qfloor rc_minX))
                             (inject_Z (Qfloor rc_maxX)) data))
                   (List.map point data))
    by apply sublist_map, drawn_sublist.
  split; [exact Hsub |].
  apply sublist_length in Hsub. rewrite !length_map in Hsub.
  rewrite length_map. exact Hsub.
Qed.

(** X17: With the pixel positions not decreasing along the array, every datum
    between the floored bounds of the visible region is drawn. *)
Theorem update_draws_visible_data (rc_minX rc_maxX : Q)
    (data : list Datum) (datum : Datum) :
  StronglySorted (fun a b => pixel a <= pixel b) data ->
  In datum data ->
  inject_Z (Qfloor rc_minX) <= pixel datum ->
  pixel datum <= inject_Z (Qfloor rc_maxX) ->
  exists instructions,
    update rc_minX rc_maxX data = MoveLine instructions /\
    In (point datum) instructions.
Proof.
  intros Hsorted Hin Hmin Hmax.
  eexists. split; [apply update_drawn |].
  apply in_map, drawn_visible; assumption.
Qed.

(** X18: What [update] draws outside the visible region: only the last
    instruction can lie right of the floored [maxX]; and, with the pixel
    positions not decreasing along the array, only the first one can lie
    left of the floored [minX]. *)
Theorem update_draws_one_point_beyond (rc_minX rc_maxX : Q)
    (data : list Datum) :
  exists instructions,
    update rc_minX rc_maxX data = MoveLine instructions /\
    Forall (fun p => fst p <= inject_Z (Qfloor rc_maxX))
           (removelast instructions) /\
    (StronglySorted (fun a b => pixel a <= pixel b) data ->
     Forall (fun p => inject_Z (Qfloor rc_minX) <= fst p)
            (tail instructions)).
Proof.
  eexists. split; [apply update_drawn |]. split.
  - rewrite removelast_map.
    apply (Forall_map_point (fun x => x <= inject_Z (Qfloor rc_maxX))).
    apply drawn_right_edge.
  - intros Hsorted.
    replace (tail (List.map point (drawn (inject_Z (Qfloor rc_minX))
                                         (inject_Z (Qfloor rc_maxX)) data)))
      with (List.map point (tail (drawn (inject_Z (Qfloor rc_minX))
                                        (inject_Z (Qfloor rc_maxX)) data)))
      by (destruct (drawn _ _ data); reflexivity).
    apply (Forall_map_point (fun x => inject_Z (Qfloor rc_minX) <= x)).
    apply drawn_left_edge, Hsorted.
Qed.

(** X19: When every datum of the sorted array lies between the floored
    bounds, nothing is culled: [update] writes the points of all the data,
    in the order of the sorted array. *)
Theorem update_all_visible (rc_minX rc_maxX : Q) (data : list Datum) :
  Forall (fun d => inject_Z (Qfloor rc_minX) <= pixel d /\
                   pixel d <= inject_Z (Qfloor rc_maxX)) data ->
  update rc_minX rc_maxX data = MoveLine (List.map point data).
Proof.
  intros Hall. rewrite update_drawn, drawn_all_inside by exact Hall.
  reflexivity.
Qed.

(** X20: When every datum lies left of the floored [minX], nothing is drawn,
    not even the last datum left of the region; when every datum lies
    right of the floored [maxX], the first datum of the array alone is
    drawn. *)
Theorem update_nothing_visible (rc_minX rc_maxX : Q) (data : list Datum) :
  (Forall (fun d => pixel d < inject_Z (Qfloor rc_minX)) data ->
   update rc_minX rc_maxX data = MoveLine []) /\
  (forall first data',
     data = first :: data' ->
     inject_Z (Qfloor rc_minX) <= inject_Z (Qfloor rc_maxX) ->
     Forall (fun d => inject_Z (Qfloor rc_maxX) < pixel d) data ->
     update rc_minX rc_maxX data = MoveLine [point first]).
Proof.
  split.
  - intros Hleft. rewrite update_drawn, drawn_all_left by exact Hleft.
    reflexivity.
  - intros first data' -> Hwindow Hright.
    rewrite update_drawn, drawn_all_right by assumption. reflexivity.
Qed.

End Shape.

Ltac qle := apply Qle_bool_imp_le; reflexivity.

Lemma samples_sorted :
  StronglySorted
    (fun a b => pixel fst sampleTimeToPixel a <= pixel fst sampleTimeToPixel b)
    samples.
Proof. repeat constructor; qle. Qed.

Lemma update_draws_visible_data_witness :
  exists instructions,
    update fst snd sampleTimeToPixel sampleValueToPixel
           150 (501 # 2) samples
    = MoveLine instructions /\
    In (point fst snd sampleTimeToPixel sampleValueToPixel (2, 1 # 2))
       instructions.
Proof.
  apply (update_draws_visible_data fst snd sampleTimeToPixel
           sampleValueToPixel 150 (501 # 2) samples (2, 1 # 2)).
  - exact samples_sorted.
  - right; right; left; reflexivity.
  - qle.
  - qle.
Defined.

Lemma update_draws_one_point_beyond_witness :
  exists instructions,
    update fst snd sampleTimeToPixel sampleValueToPixel
           150 (501 # 2) samples
    = MoveLine instructions /\
    Forall (fun p => fst p <= inject_Z (Qfloor (501 # 2)))
           (removelast instructions) /\
    Forall (fun p => inject_Z (Qfloor 150) <= fst p) (tail instructions).
Proof.
  destruct (update_draws_one_point_beyond fst snd sampleTimeToPixel
              sampleValueToPixel 150 (501 # 2) samples)
    as (instructions & Hrun & Hright & Hleft).
  exists instructions. split; [exact Hrun |].
  split; [exact Hright | exact (Hleft samples_sorted)].
Defined.

Lemma update_all_visible_witness :
  update fst snd sampleTimeToPixel sampleValueToPixel 0 400 samples
  = MoveLine (List.map (point fst snd sampleTimeToPixel sampleValueToPixel)
                       samples).
Proof.
  apply (update_all_visible fst snd sampleTimeToPixel sampleValueToPixel
           0 400 samples).
  repeat constructor; qle.
Defined.

Lemma update_nothing_visible_witness :
  update fst snd sampleTimeToPixel sampleValueToPixel 500 600 samples
  = MoveLine [] /\
  update fst snd sampleTimeToPixel sampleValueToPixel (-200) (-100) samples
  = MoveLine [point fst snd sampleTimeToPixel sampleValueToPixel (0, 0)].
Proof.
  split.
  - apply (proj1 (update_nothing_visible fst snd sampleTimeToPixel
                    sampleValueToPixel 500 600 samples)).
    repeat constructor.
  - apply (proj2 (update_nothing_visible fst snd sampleTimeToPixel
                    sampleValueToPixel (-200) (-100) samples)
             (0, 0) (tail samples) eq_refl); [qle |].
    repeat constructor.
Defined.

End LineProofs.
